(** * Black-Scholes option pricing (MyModelBlackSholes.py)

    A shallow embedding of the script and the properties its
    specification states, under two readings of its arithmetic.

    - Exact real arithmetic (the first part).  A Python [float] is read as
      a real number of [R]: no rounding, no underflow, no overflow, no NaN
      and no infinity.  [scipy.stats.norm.cdf] is the standard normal
      distribution function 0.5 * (1 + erf (x / sqrt 2)), with erf defined
      by its integral.  The analytic properties of the formula (parity,
      monotonicity, bounds, homogeneity) are statements of this reading
      and are true of the running code only up to rounding and within the
      range of the floats.
    - Machine arithmetic (module [Machine], the last part).  A Python
      [float] is a binary64 float, the operators round as IEEE 754 says,
      and the wrappers of the math module raise as CPython's do.  The
      statements of this reading hold of the code on every input.

    In both, a Python call is a computation over the console state that
    either returns a value or raises one of Python's built-in
    exceptions. *)

From Stdlib Require Import Reals Lra List String.
Import ListNotations.
Open Scope R_scope.

(** ** Integrals of continuous functions *)

Section ContinuousIntegral.

Variable f : R -> R.
Hypothesis f_cont : continuity f.

Lemma cont_integrable (a b : R) : Riemann_integrable f a b.
Proof.
  destruct (Rle_dec a b) as [Hab | Hab].
  - apply continuity_implies_RiemannInt; [exact Hab | intros; apply f_cont].
  - apply RiemannInt_P1.
    apply continuity_implies_RiemannInt; [lra | intros; apply f_cont].
Qed.

(** The integral of [f] from [a] to [b] (signed: [b] may be below [a]). *)
Definition cint (a b : R) : R := RiemannInt (cont_integrable a b).

Lemma cint_refl (a : R) : cint a a = 0.
Proof. unfold cint. apply RiemannInt_P9. Qed.

Lemma cint_chasles (a b c : R) : cint a b + cint b c = cint a c.
Proof. unfold cint. apply RiemannInt_P26. Qed.

Lemma cint_derive (a x : R) : derivable_pt_lim (cint a) x (f x).
Proof.
  set (lo := Rmin a x - 1).
  set (hi := Rmax a x + 1).
  assert (Hlo : lo <= a /\ lo <= x - 1).
  { unfold lo, Rmin. destruct (Rle_dec a x); lra. }
  assert (Hhi : a <= hi /\ x + 1 <= hi).
  { unfold hi, Rmax. destruct (Rle_dec a x); lra. }
  assert (h : lo <= hi) by lra.
  assert (C0 : forall y : R, lo <= y <= hi -> continuity_pt f y).
  { intros; apply f_cont. }
  assert (Hx : lo <= x <= hi) by lra.
  pose proof (RiemannInt_P28 h C0 Hx) as HP.
  assert (Heq : forall y, lo <= y <= hi ->
            cint a y = primitive h (FTC_P1 h C0) y - cint lo a).
  { intros y Hy. unfold primitive.
    destruct (Rle_dec lo y) as [H1 | H1]; [| lra].
    destruct (Rle_dec y hi) as [H2 | H2]; [| lra].
    rewrite (RiemannInt_P5 (FTC_P1 h C0 H1 H2) (cont_integrable lo y)).
    fold (cint lo y).
    rewrite <- (cint_chasles lo a y). lra. }
  intros eps Heps.
  destruct (HP eps Heps) as [delta Hdelta].
  assert (Hd : 0 < Rmin delta 1).
  { apply Rmin_pos; [apply cond_pos | lra]. }
  exists (mkposreal _ Hd). intros d Hd0 Hdlt. simpl in Hdlt.
  assert (Hd1 : Rabs d < delta).
  { eapply Rlt_le_trans; [exact Hdlt | apply Rmin_l]. }
  assert (Hd2 : Rabs d < 1).
  { eapply Rlt_le_trans; [exact Hdlt | apply Rmin_r]. }
  apply Rabs_def2 in Hd2.
  rewrite (Heq (x + d)) by lra.
  rewrite (Heq x) by lra.
  replace (primitive h (FTC_P1 h C0) (x + d) - cint lo a -
           (primitive h (FTC_P1 h C0) x - cint lo a))
    with (primitive h (FTC_P1 h C0) (x + d) - primitive h (FTC_P1 h C0) x)
    by ring.
  apply Hdelta; assumption.
Qed.

End ContinuousIntegral.

(** ** Consequences of the mean value theorem *)

Section MeanValue.

Variables F f : R -> R.

Lemma deriv_incr (a b : R) :
  a <= b ->
  (forall c, a <= c <= b -> derivable_pt_lim F c (f c)) ->
  (forall c, a <= c <= b -> 0 <= f c) ->
  F a <= F b.
Proof.
  intros Hab HD Hpos.
  destruct Hab as [Hlt | ->]; [| lra].
  destruct (MVT_cor2 F f a b Hlt HD) as [c [Hc Hin]].
  assert (0 <= f c) by (apply Hpos; lra).
  assert (0 <= f c * (b - a)) by (apply Rmult_le_pos; lra).
  lra.
Qed.

Lemma deriv_bound (a b M : R) :
  (forall c, Rmin a b <= c <= Rmax a b -> derivable_pt_lim F c (f c)) ->
  (forall c, Rmin a b <= c <= Rmax a b -> Rabs (f c) <= M) ->
  Rabs (F b - F a) <= M * Rabs (b - a).
Proof.
  intros HD HM.
  destruct (MVT_abs F f a b HD) as [c [Hc Hin]].
  rewrite Hc.
  apply Rmult_le_compat_r; [apply Rabs_pos | apply HM; exact Hin].
Qed.

Lemma deriv_zero (a b : R) :
  (forall c, Rmin a b <= c <= Rmax a b -> derivable_pt_lim F c (f c)) ->
  (forall c, Rmin a b <= c <= Rmax a b -> f c = 0) ->
  F b = F a.
Proof.
  intros HD HZ.
  assert (H : Rabs (F b - F a) <= 0 * Rabs (b - a)).
  { apply deriv_bound; [exact HD |].
    intros c Hc. rewrite (HZ c Hc), Rabs_R0. lra. }
  rewrite Rmult_0_l in H.
  pose proof (Rabs_pos (F b - F a)) as Hp.
  assert (Hz : Rabs (F b - F a) = 0) by lra.
  destruct (Req_dec_T (F b - F a) 0) as [He | He]; [lra |].
  apply Rabs_no_R0 in He. contradiction.
Qed.

End MeanValue.

Lemma deriv_decr (F f : R -> R) (a b : R) :
  a <= b ->
  (forall c, a <= c <= b -> derivable_pt_lim F c (f c)) ->
  (forall c, a <= c <= b -> f c <= 0) ->
  F b <= F a.
Proof.
  intros Hab HD Hneg.
  assert (H : - F a <= - F b).
  { apply (deriv_incr (fun x => - F x) (fun x => - f x) a b Hab).
    - intros c Hc. apply (derivable_pt_lim_opp F c (f c)), HD, Hc.
    - intros c Hc. specialize (Hneg c Hc). lra. }
  lra.
Qed.

Lemma dlim_eq (F : R -> R) (x l l' : R) :
  derivable_pt_lim F x l -> l = l' -> derivable_pt_lim F x l'.
Proof. intros H <-. exact H. Qed.

Lemma derivable_pt_lim_Rinv (x : R) :
  x <> 0 -> derivable_pt_lim Rinv x (- / (x * x)).
Proof.
  intros Hx.
  apply derivable_pt_lim_ext with (f := fun y => 1 / y).
  { intros z. unfold Rdiv. apply Rmult_1_l. }
  eapply dlim_eq.
  - apply (derivable_pt_lim_div (fun _ => 1) (fun y => y) x 0 1).
    + apply (derivable_pt_lim_const 1 x).
    + apply derivable_pt_lim_id.
    + exact Hx.
  - unfold Rsqr. field. exact Hx.
Qed.

(** Derivatives of expressions built from the usual operations. *)
Ltac dlim :=
  cbv beta;
  lazymatch goal with
  | |- derivable_pt_lim (fun x => x) _ _ => apply derivable_pt_lim_id
  | |- derivable_pt_lim (fun _ => ?c) ?a _ => apply (derivable_pt_lim_const c a)
  | |- derivable_pt_lim (fun x => @?u x + @?v x) ?a _ =>
      apply (derivable_pt_lim_plus u v a); dlim
  | |- derivable_pt_lim (fun x => @?u x - @?v x) ?a _ =>
      apply (derivable_pt_lim_minus u v a); dlim
  | |- derivable_pt_lim (fun x => @?u x * @?v x) ?a _ =>
      apply (derivable_pt_lim_mult u v a); dlim
  | |- derivable_pt_lim (fun x => @?u x / @?v x) ?a _ =>
      apply (derivable_pt_lim_mult u (fun x => / v x) a); dlim
  | |- derivable_pt_lim (fun x => - @?u x) ?a _ =>
      apply (derivable_pt_lim_opp u a); dlim
  | |- derivable_pt_lim (fun x => exp (@?u x)) ?a _ =>
      apply (derivable_pt_lim_comp u exp a);
      [dlim | apply derivable_pt_lim_exp]
  | |- derivable_pt_lim (fun x => atan (@?u x)) ?a _ =>
      apply (derivable_pt_lim_comp u atan a);
      [dlim | apply derivable_pt_lim_atan]
  | |- derivable_pt_lim (fun x => ln (@?u x)) ?a _ =>
      apply (derivable_pt_lim_comp u ln a);
      [dlim | apply derivable_pt_lim_ln]
  | |- derivable_pt_lim (fun x => / (@?u x)) ?a _ =>
      apply (derivable_pt_lim_comp u Rinv a);
      [dlim | apply derivable_pt_lim_Rinv]
  | |- derivable_pt_lim (fun x => ?g x) _ _ => idtac
  | |- derivable_pt_lim (fun x => ?g (@?u x)) ?a _ =>
      apply (derivable_pt_lim_comp u g a); [dlim | ]
  | |- _ => idtac
  end.

(** ** A second-order Taylor bound *)

Lemma between_dist (a b c : R) :
  Rmin a b <= c <= Rmax a b -> Rabs (c - a) <= Rabs (b - a).
Proof.
  unfold Rmin, Rmax. intros H.
  destruct (Rle_dec a b).
  - rewrite !Rabs_pos_eq by lra. lra.
  - rewrite !Rabs_left1 by lra. lra.
Qed.

Lemma taylor2 (k k' k'' : R -> R) (x d B : R) :
  (forall y, derivable_pt_lim k y (k' y)) ->
  (forall y, derivable_pt_lim k' y (k'' y)) ->
  (forall y, Rabs (y - x) <= Rabs d -> Rabs (k'' y) <= B) ->
  Rabs (k (x + d) - k x - d * k' x) <= B * (d * d).
Proof.
  intros Hk Hk' HB.
  assert (Hsq : d * d = Rabs d * Rabs d).
  { rewrite <- Rabs_mult. symmetry. apply Rabs_pos_eq, Rle_0_sqr. }
  assert (HB0 : 0 <= B).
  { eapply Rle_trans; [apply Rabs_pos | apply (HB x)].
    rewrite Rminus_diag, Rabs_R0. apply Rabs_pos. }
  assert (Hxd : Rabs (x + d - x) = Rabs d) by (f_equal; ring).
  (* first the derivative moves by at most B * |d| *)
  assert (H1 : forall y, Rabs (y - x) <= Rabs d ->
                         Rabs (k' y - k' x) <= B * Rabs d).
  { intros y Hy.
    apply Rle_trans with (B * Rabs (y - x)).
    - apply (deriv_bound k' k'' x y B).
      + intros c _. apply Hk'.
      + intros c Hc. apply HB.
        eapply Rle_trans; [apply between_dist; exact Hc | exact Hy].
    - apply Rmult_le_compat_l; assumption. }
  (* then the function itself *)
  pose (psi := fun y => k y - (y - x) * k' x).
  assert (H2 : Rabs (psi (x + d) - psi x) <= B * Rabs d * Rabs (x + d - x)).
  { apply (deriv_bound psi (fun y => k' y - k' x) x (x + d)).
    - intros c _. unfold psi.
      eapply dlim_eq.
      + apply (derivable_pt_lim_minus k (fun y => (y - x) * k' x) c).
        * apply Hk.
        * dlim.
      + cbv beta. ring.
    - intros c Hc. apply H1.
      rewrite <- Hxd. apply between_dist. exact Hc. }
  unfold psi in H2. rewrite Hxd in H2.
  replace (k (x + d) - k x - d * k' x)
    with (k (x + d) - (x + d - x) * k' x - (k x - (x - x) * k' x)) by ring.
  rewrite Hsq. lra.
Qed.

(** ** Differentiation under the integral sign *)

Section ParamIntegral.

Variables h hx : R -> R -> R.
Hypothesis h_cont : forall x, continuity (h x).
Hypothesis hx_cont : forall x, continuity (hx x).
Variables x M : R.
Hypothesis taylor :
  forall d t, Rabs d <= 1 -> 0 <= t <= 1 ->
    Rabs (h (x + d) t - h x t - d * hx x t) <= M * (d * d).

Lemma param_step (d : R) :
  Rabs d <= 1 ->
  Rabs (cint (h (x + d)) (h_cont (x + d)) 0 1 - cint (h x) (h_cont x) 0 1
        - d * cint (hx x) (hx_cont x) 0 1) <= M * (d * d).
Proof.
  intros Hd.
  pose (F := fun s => cint (h (x + d)) (h_cont (x + d)) 0 s
                      - cint (h x) (h_cont x) 0 s
                      - d * cint (hx x) (hx_cont x) 0 s).
  pose (f := fun s => h (x + d) s - h x s - d * hx x s).
  assert (HB : Rabs (F 1 - F 0) <= M * (d * d) * Rabs (1 - 0)).
  { apply (deriv_bound F f 0 1).
    - intros c _. unfold F, f.
      eapply dlim_eq.
      + apply (derivable_pt_lim_minus
                 (fun s => cint (h (x + d)) (h_cont (x + d)) 0 s
                           - cint (h x) (h_cont x) 0 s)
                 (fun s => d * cint (hx x) (hx_cont x) 0 s) c).
        * apply (derivable_pt_lim_minus
                   (cint (h (x + d)) (h_cont (x + d)) 0)
                   (cint (h x) (h_cont x) 0) c); apply cint_derive.
        * apply (derivable_pt_lim_scal (cint (hx x) (hx_cont x) 0) d c).
          apply cint_derive.
      + reflexivity.
    - intros c Hc. rewrite Rmin_left, Rmax_right in Hc by lra.
      unfold f. apply taylor; assumption. }
  unfold F in HB. rewrite !cint_refl in HB.
  replace (Rabs (1 - 0)) with 1 in HB
    by (rewrite Rminus_0_r, Rabs_R1; reflexivity).
  match goal with
  | H : Rabs ?a <= _ |- Rabs ?b <= _ => replace b with a by ring
  end.
  lra.
Qed.

Lemma param_derive :
  derivable_pt_lim (fun y => cint (h y) (h_cont y) 0 1) x
                   (cint (hx x) (hx_cont x) 0 1).
Proof.
  assert (HM : 0 <= M).
  { assert (H1 : Rabs 1 <= 1) by (rewrite Rabs_R1; lra).
    assert (H2 : 0 <= 0 <= 1) by lra.
    pose proof (taylor 1 0 H1 H2) as Ht.
    pose proof (Rabs_pos (h (x + 1) 0 - h x 0 - 1 * hx x 0)). lra. }
  intros eps Heps.
  assert (Hdel : 0 < Rmin 1 (eps / (M + 1))).
  { apply Rmin_pos; [lra |]. apply Rdiv_lt_0_compat; lra. }
  exists (mkposreal _ Hdel). intros d Hd0 Hdlt. simpl in Hdlt.
  assert (Hd1 : Rabs d <= 1).
  { left. eapply Rlt_le_trans; [exact Hdlt | apply Rmin_l]. }
  assert (Hd2 : Rabs d < eps / (M + 1)).
  { eapply Rlt_le_trans; [exact Hdlt | apply Rmin_r]. }
  pose proof (param_step d Hd1) as Hs.
  set (I1 := cint (h (x + d)) (h_cont (x + d)) 0 1) in *.
  set (I0 := cint (h x) (h_cont x) 0 1) in *.
  set (J := cint (hx x) (hx_cont x) 0 1) in *.
  replace ((I1 - I0) / d - J) with ((I1 - I0 - d * J) / d) by (field; exact Hd0).
  unfold Rdiv. rewrite Rabs_mult, Rabs_inv.
  assert (Hpos : 0 < Rabs d) by (apply Rabs_pos_lt; exact Hd0).
  assert (Hsq : d * d = Rabs d * Rabs d).
  { rewrite <- Rabs_mult. symmetry. apply Rabs_pos_eq.
    apply Rle_0_sqr. }
  rewrite Hsq in Hs.
  apply Rle_lt_trans with (M * Rabs d).
  - apply Rmult_le_reg_r with (Rabs d); [exact Hpos |].
    rewrite Rmult_assoc, Rinv_l by lra. lra.
  - apply Rle_lt_trans with (M * (eps / (M + 1))).
    + apply Rmult_le_compat_l; lra.
    + apply Rmult_lt_reg_r with (M + 1); [lra |].
      replace (M * (eps / (M + 1)) * (M + 1)) with (M * eps) by (field; lra).
      nra.
Qed.

End ParamIntegral.

(** ** The standard normal distribution function *)

(** The integrand of the error function. *)
Definition gauss (t : R) : R := exp (- (t * t)).

Lemma gauss_derive (t : R) : derivable_pt_lim gauss t (- (2 * t) * gauss t).
Proof.
  unfold gauss. eapply dlim_eq; [dlim | cbv beta; ring].
Qed.

Lemma gauss_cont : continuity gauss.
Proof.
  intros t. apply derivable_continuous_pt.
  exists (- (2 * t) * gauss t). apply gauss_derive.
Qed.

(** The integral of [gauss] from 0 to [z]. *)
Definition gauss_int (z : R) : R := cint gauss gauss_cont 0 z.

(** Modelled from the spec: the error function behind the normal
    distribution function, erf z = 2 / sqrt pi * integral of exp (- t^2)
    for t from 0 to z.  It belongs to the statistics library the script
    imports, whose code is not part of the repository. *)
Definition erf (z : R) : R := 2 / sqrt PI * gauss_int z.

(** Modelled from the spec: [scipy.stats.norm.cdf], the standard normal
    cumulative distribution function, which section 4.1 of the
    specification gives as 0.5 * (1 + erf (x / sqrt 2)). *)
Definition norm_cdf (x : R) : R := 0.5 * (1 + erf (x / sqrt 2)).

(** ** The Gaussian integral *)

Lemma gauss_int_derive (z : R) : derivable_pt_lim gauss_int z (gauss z).
Proof. unfold gauss_int. apply cint_derive. Qed.

Lemma gauss_int_0 : gauss_int 0 = 0.
Proof. unfold gauss_int. apply cint_refl. Qed.

Lemma gauss_even (t : R) : gauss (- t) = gauss t.
Proof. unfold gauss. f_equal. ring. Qed.

Lemma gauss_pos (t : R) : 0 < gauss t.
Proof. unfold gauss. apply exp_pos. Qed.

Ltac dlim_gauss :=
  dlim; cbv beta; try apply gauss_int_derive; try apply gauss_derive.

Lemma gauss_int_odd (z : R) : gauss_int (- z) = - gauss_int z.
Proof.
  pose (F := fun y => gauss_int y + gauss_int (- y)).
  assert (H : F z = F 0).
  { apply (deriv_zero F (fun y => gauss y + gauss (- y) * - (1)) 0 z).
    - intros c _. unfold F.
      eapply dlim_eq; [dlim_gauss | cbv beta; ring].
    - intros c _. rewrite gauss_even. ring. }
  unfold F in H. rewrite Ropp_0, gauss_int_0 in H. lra.
Qed.

Lemma gauss_int_incr (a b : R) : a <= b -> gauss_int a <= gauss_int b.
Proof.
  intros Hab.
  apply (deriv_incr gauss_int gauss a b Hab).
  - intros c _. apply gauss_int_derive.
  - intros c _. left. apply gauss_pos.
Qed.

Lemma gauss_int_nonneg (z : R) : 0 <= z -> 0 <= gauss_int z.
Proof.
  intros Hz. rewrite <- gauss_int_0. apply gauss_int_incr. exact Hz.
Qed.

(** The kernel of the auxiliary integral
    H x = integral over [0,1] of exp (- x^2 (1 + t^2)) / (1 + t^2) dt,
    for which gauss_int x ^ 2 + H x is constant. *)
Definition hker (x t : R) : R :=
  exp (- (x * x) * (1 + t * t)) * / (1 + t * t).

Definition hker_dx (x t : R) : R :=
  - (2 * x) * exp (- (x * x) * (1 + t * t)).

Definition hker_dxx (x t : R) : R :=
  (4 * (1 + t * t) * (x * x) - 2) * exp (- (x * x) * (1 + t * t)).

Lemma one_plus_sq_neq (t : R) : 1 + t * t <> 0.
Proof. nra. Qed.

Lemma hker_cont (x : R) : continuity (hker x).
Proof.
  intros t. apply derivable_continuous_pt.
  eexists. unfold derivable_pt_abs, hker. dlim. apply one_plus_sq_neq.
Qed.

Lemma hker_dx_cont (x : R) : continuity (hker_dx x).
Proof.
  intros t. apply derivable_continuous_pt.
  eexists. unfold derivable_pt_abs, hker_dx. dlim.
Qed.

Lemma hker_derive_x (t x : R) :
  derivable_pt_lim (fun y => hker y t) x (hker_dx x t).
Proof.
  unfold hker, hker_dx.
  eapply dlim_eq; [dlim | cbv beta].
  field. apply one_plus_sq_neq.
Qed.

Lemma hker_dx_derive_x (t x : R) :
  derivable_pt_lim (fun y => hker_dx y t) x (hker_dxx x t).
Proof.
  unfold hker_dx, hker_dxx.
  eapply dlim_eq; [dlim | cbv beta; ring].
Qed.

Lemma exp_nonpos_le_1 (u : R) : u <= 0 -> exp u <= 1.
Proof.
  intros [Hu | ->].
  - left. rewrite <- exp_0. apply exp_increasing. exact Hu.
  - rewrite exp_0. lra.
Qed.

Lemma hker_dxx_bound (x t y : R) :
  0 <= t <= 1 -> Rabs (y - x) <= 1 ->
  Rabs (hker_dxx y t) <= 8 * ((Rabs x + 1) * (Rabs x + 1)) + 2.
Proof.
  intros Ht Hy.
  unfold hker_dxx. rewrite Rabs_mult.
  assert (He : 0 < exp (- (y * y) * (1 + t * t)) <= 1).
  { split; [apply exp_pos | apply exp_nonpos_le_1; nra]. }
  rewrite (Rabs_pos_eq (exp _)) by lra.
  assert (Hyy : y * y <= (Rabs x + 1) * (Rabs x + 1)).
  { assert (Hay : Rabs y <= Rabs x + 1).
    { replace y with (y - x + x) at 1 by ring.
      eapply Rle_trans; [apply Rabs_triang | lra]. }
    pose proof (Rabs_pos y) as Hp.
    assert (Hsq : y * y = Rabs y * Rabs y).
    { rewrite <- Rabs_mult. symmetry. apply Rabs_pos_eq, Rle_0_sqr. }
    rewrite Hsq. nra. }
  assert (Hyy0 : 0 <= y * y) by apply Rle_0_sqr.
  assert (Hc : 1 <= 1 + t * t <= 2) by nra.
  assert (Ha : Rabs (4 * (1 + t * t) * (y * y) - 2)
               <= 8 * ((Rabs x + 1) * (Rabs x + 1)) + 2).
  { apply Rabs_le. split; nra. }
  pose proof (Rabs_pos (4 * (1 + t * t) * (y * y) - 2)) as Hp.
  nra.
Qed.

(** The auxiliary integral. *)
Definition Hfun (x : R) : R := cint (hker x) (hker_cont x) 0 1.

Lemma Hfun_derive_raw (x : R) :
  derivable_pt_lim Hfun x (cint (hker_dx x) (hker_dx_cont x) 0 1).
Proof.
  unfold Hfun.
  apply (param_derive hker hker_dx hker_cont hker_dx_cont x
           (8 * ((Rabs x + 1) * (Rabs x + 1)) + 2)).
  intros d t Hd Ht.
  apply (taylor2 (fun y => hker y t) (fun y => hker_dx y t)
                 (fun y => hker_dxx y t) x d).
  - intros y. apply hker_derive_x.
  - intros y. apply hker_dx_derive_x.
  - intros y Hy. apply hker_dxx_bound; [exact Ht | lra].
Qed.

Lemma hker_dx_integral (x s : R) :
  cint (hker_dx x) (hker_dx_cont x) 0 s
  = - (2) * gauss x * gauss_int (x * s).
Proof.
  pose (D := fun s => cint (hker_dx x) (hker_dx_cont x) 0 s
                      - - (2) * gauss x * gauss_int (x * s)).
  assert (H : D s = D 0).
  { apply (deriv_zero D
             (fun s => hker_dx x s - - (2) * gauss x * (gauss (x * s) * x))
             0 s).
    - intros c _. unfold D.
      eapply dlim_eq.
      + apply (derivable_pt_lim_minus
                 (cint (hker_dx x) (hker_dx_cont x) 0)
                 (fun s => - (2) * gauss x * gauss_int (x * s)) c).
        * apply cint_derive.
        * dlim_gauss.
      + cbv beta. ring.
    - intros c _. unfold hker_dx, gauss.
      replace (- (x * x) * (1 + c * c))
        with (- (x * x) + - (x * c * (x * c))) by ring.
      rewrite exp_plus. ring. }
  unfold D in H. rewrite cint_refl, Rmult_0_r, gauss_int_0 in H. lra.
Qed.

Lemma Hfun_derive (x : R) :
  derivable_pt_lim Hfun x (- (2) * gauss x * gauss_int x).
Proof.
  eapply dlim_eq; [apply Hfun_derive_raw |].
  rewrite hker_dx_integral, Rmult_1_r. reflexivity.
Qed.

Lemma Hfun_0 : Hfun 0 = PI / 4.
Proof.
  pose (D := fun s => cint (hker 0) (hker_cont 0) 0 s - atan s).
  assert (H : D 1 = D 0).
  { apply (deriv_zero D (fun s => hker 0 s - / (1 + s ^ 2)) 0 1).
    - intros c _. unfold D.
      apply (derivable_pt_lim_minus (cint (hker 0) (hker_cont 0) 0) atan c).
      + apply cint_derive.
      + apply derivable_pt_lim_atan.
    - intros c _. unfold hker.
      replace (- (0 * 0) * (1 + c * c)) with 0 by ring.
      rewrite exp_0. replace (c ^ 2) with (c * c) by ring. ring. }
  unfold D in H. rewrite cint_refl, atan_0, atan_1 in H.
  unfold Hfun. lra.
Qed.

Lemma hker_bounds (x t : R) : 0 <= hker x t <= gauss x.
Proof.
  unfold hker, gauss.
  assert (Hc : 1 <= 1 + t * t) by nra.
  assert (Hi : 0 < / (1 + t * t) <= 1).
  { split; [apply Rinv_0_lt_compat; lra |].
    pose proof (Rinv_le_contravar 1 (1 + t * t) Rlt_0_1 Hc) as Hle.
    rewrite Rinv_1 in Hle. exact Hle. }
  assert (He : 0 < exp (- (x * x) * (1 + t * t)) <= exp (- (x * x))).
  { split; [apply exp_pos |].
    destruct (Req_dec_T (- (x * x) * (1 + t * t)) (- (x * x))) as [-> | Hn].
    - lra.
    - left. apply exp_increasing. nra. }
  split; nra.
Qed.

Lemma Hfun_bounds (x : R) : 0 <= Hfun x <= gauss x.
Proof.
  unfold Hfun. split.
  - rewrite <- (cint_refl (hker x) (hker_cont x) 0) at 1.
    apply (deriv_incr (cint (hker x) (hker_cont x) 0) (hker x) 0 1).
    + lra.
    + intros c _. apply cint_derive.
    + intros c _. apply hker_bounds.
  - pose (D := fun s => gauss x * s - cint (hker x) (hker_cont x) 0 s).
    assert (H : D 0 <= D 1).
    { apply (deriv_incr D (fun s => gauss x - hker x s) 0 1).
      - lra.
      - intros c _. unfold D.
        eapply dlim_eq.
        + apply (derivable_pt_lim_minus (fun s => gauss x * s)
                   (cint (hker x) (hker_cont x) 0) c).
          * dlim.
          * apply cint_derive.
        + cbv beta. ring.
      - intros c _. pose proof (hker_bounds x c). lra. }
    unfold D in H. rewrite cint_refl in H. lra.
Qed.

(** The identity behind the value of the Gaussian integral. *)
Lemma gauss_int_sqr (x : R) : gauss_int x * gauss_int x + Hfun x = PI / 4.
Proof.
  pose (G := fun y => gauss_int y * gauss_int y + Hfun y).
  assert (H : G x = G 0).
  { apply (deriv_zero G
             (fun y => gauss y * gauss_int y + gauss_int y * gauss y
                       + - (2) * gauss y * gauss_int y) 0 x).
    - intros c _. unfold G.
      apply (derivable_pt_lim_plus (fun y => gauss_int y * gauss_int y)
               Hfun c).
      + apply (derivable_pt_lim_mult gauss_int gauss_int c);
          apply gauss_int_derive.
      + apply Hfun_derive.
    - intros c _. ring. }
  unfold G in H. rewrite gauss_int_0, Hfun_0 in H. lra.
Qed.

(** ** Properties of the normal distribution function *)

Lemma half_eq : 0.5 = / 2.
Proof. lra. Qed.

Lemma sqrt_PI_pos : 0 < sqrt PI.
Proof. apply sqrt_lt_R0, PI_RGT_0. Qed.

Lemma sqrt_2_pos : 0 < sqrt 2.
Proof. apply sqrt_lt_R0. lra. Qed.

Lemma sqrt_PI_sqr : sqrt PI * sqrt PI = PI.
Proof. apply sqrt_sqrt. left. apply PI_RGT_0. Qed.

Lemma sqrt_2_sqr : sqrt 2 * sqrt 2 = 2.
Proof. apply sqrt_sqrt. lra. Qed.

Lemma erf_odd (z : R) : erf (- z) = - erf z.
Proof. unfold erf. rewrite gauss_int_odd. ring. Qed.

Lemma erf_derive (z : R) :
  derivable_pt_lim erf z (2 / sqrt PI * gauss z).
Proof.
  unfold erf. eapply dlim_eq; [dlim_gauss | cbv beta; ring].
Qed.

Lemma erf_sqr (z : R) : erf z * erf z = 1 - 4 / PI * Hfun z.
Proof.
  pose proof (gauss_int_sqr z) as H.
  pose proof sqrt_PI_pos as Hs.
  pose proof sqrt_PI_sqr as Hss.
  pose proof PI_RGT_0 as Hpi.
  unfold erf.
  replace (2 / sqrt PI * gauss_int z * (2 / sqrt PI * gauss_int z))
    with (4 / (sqrt PI * sqrt PI) * (gauss_int z * gauss_int z))
    by (field; lra).
  rewrite Hss.
  replace (gauss_int z * gauss_int z) with (PI / 4 - Hfun z) by lra.
  field. lra.
Qed.

Lemma erf_nonneg (z : R) : 0 <= z -> 0 <= erf z.
Proof.
  intros Hz. unfold erf.
  apply Rmult_le_pos; [| apply gauss_int_nonneg; exact Hz].
  apply Rlt_le, Rdiv_lt_0_compat; [lra | apply sqrt_PI_pos].
Qed.

Lemma four_over_PI_pos : 0 < 4 / PI.
Proof. apply Rdiv_lt_0_compat; [lra | apply PI_RGT_0]. Qed.

Lemma erf_bounds (z : R) : -1 <= erf z <= 1.
Proof.
  pose proof (erf_sqr z) as H.
  pose proof (Hfun_bounds z) as [HH _].
  pose proof four_over_PI_pos as Hp.
  assert (Hq : erf z * erf z <= 1) by nra.
  split; nra.
Qed.

Lemma erf_tail (z : R) : 0 <= z -> 1 - erf z <= 4 / PI * gauss z.
Proof.
  intros Hz.
  pose proof (erf_sqr z) as H.
  pose proof (Hfun_bounds z) as [_ HH].
  pose proof four_over_PI_pos as Hp.
  pose proof (erf_nonneg z Hz) as Hn.
  pose proof (erf_bounds z) as [_ Hb].
  assert (H1 : (1 - erf z) * (1 + erf z) <= 4 / PI * gauss z) by nra.
  nra.
Qed.

(** The density of the standard normal distribution. *)
Definition norm_pdf (x : R) : R := exp (- (x * x) / 2) / sqrt (2 * PI).

Lemma sqrt_2PI_pos : 0 < sqrt (2 * PI).
Proof. apply sqrt_lt_R0. pose proof PI_RGT_0. lra. Qed.

Lemma norm_pdf_pos (x : R) : 0 < norm_pdf x.
Proof.
  unfold norm_pdf. apply Rdiv_lt_0_compat; [apply exp_pos | apply sqrt_2PI_pos].
Qed.

Lemma gauss_scaled (x : R) : gauss (x / sqrt 2) = exp (- (x * x) / 2).
Proof.
  unfold gauss. f_equal.
  pose proof sqrt_2_pos. pose proof sqrt_2_sqr as H2.
  replace (x / sqrt 2 * (x / sqrt 2)) with (x * x / (sqrt 2 * sqrt 2))
    by (field; lra).
  rewrite H2. field.
Qed.

Lemma norm_cdf_derive (x : R) : derivable_pt_lim norm_cdf x (norm_pdf x).
Proof.
  unfold norm_cdf.
  eapply dlim_eq.
  - apply (derivable_pt_lim_mult (fun _ => 0.5)
             (fun y => 1 + erf (y / sqrt 2)) x).
    + dlim.
    + apply (derivable_pt_lim_plus (fun _ => 1)
               (fun y => erf (y / sqrt 2)) x).
      * dlim.
      * apply (derivable_pt_lim_comp (fun y => y / sqrt 2) erf x).
        -- apply (derivable_pt_lim_mult (fun y => y) (fun _ => / sqrt 2) x);
             dlim.
        -- apply erf_derive.
  - cbv beta. rewrite gauss_scaled. unfold norm_pdf.
    rewrite sqrt_mult by (pose proof PI_RGT_0; lra).
    pose proof sqrt_2_pos. pose proof sqrt_PI_pos.
    rewrite half_eq. field. lra.
Qed.

Lemma norm_cdf_sym (x : R) : norm_cdf (- x) = 1 - norm_cdf x.
Proof.
  unfold norm_cdf.
  replace (- x / sqrt 2) with (- (x / sqrt 2))
    by (field; apply Rgt_not_eq, sqrt_2_pos).
  rewrite erf_odd. lra.
Qed.

Lemma norm_cdf_bounds (x : R) : 0 <= norm_cdf x <= 1.
Proof.
  unfold norm_cdf. pose proof (erf_bounds (x / sqrt 2)). lra.
Qed.

Lemma norm_cdf_incr (a b : R) : a <= b -> norm_cdf a <= norm_cdf b.
Proof.
  intros Hab.
  apply (deriv_incr norm_cdf norm_pdf a b Hab).
  - intros c _. apply norm_cdf_derive.
  - intros c _. left. apply norm_pdf_pos.
Qed.

Lemma norm_cdf_tail (y : R) :
  0 <= y -> norm_cdf (- y) <= 2 / PI * exp (- (y * y) / 2).
Proof.
  intros Hy.
  rewrite norm_cdf_sym. unfold norm_cdf.
  assert (Hz : 0 <= y / sqrt 2).
  { apply Rmult_le_pos; [exact Hy |].
    apply Rlt_le, Rinv_0_lt_compat, sqrt_2_pos. }
  pose proof (erf_tail (y / sqrt 2) Hz) as Ht.
  rewrite gauss_scaled in Ht.
  pose proof PI_RGT_0.
  replace (2 / PI * exp (- (y * y) / 2))
    with (0.5 * (4 / PI * exp (- (y * y) / 2)))
    by (rewrite half_eq; field; lra).
  lra.
Qed.

(** The distribution function vanishes at minus infinity. *)
Lemma norm_cdf_vanishes (eps : R) :
  0 < eps -> exists y0 : R, forall y, y <= y0 -> norm_cdf y < eps.
Proof.
  intros Heps.
  pose (m := 1 + 2 / eps).
  assert (Hm : 1 < m).
  { unfold m. assert (0 < 2 / eps) by (apply Rdiv_lt_0_compat; lra). lra. }
  exists (- m). intros y Hy.
  apply Rle_lt_trans with (norm_cdf (- m)); [apply norm_cdf_incr; exact Hy |].
  apply Rle_lt_trans with (2 / PI * exp (- (m * m) / 2));
    [apply norm_cdf_tail; lra |].
  (* exp (- u) <= 1 / (1 + u) < 2 / (m * m) *)
  assert (Hu : 0 < m * m / 2) by nra.
  assert (He : exp (- (m * m) / 2) < / (m * m / 2)).
  { replace (- (m * m) / 2) with (- (m * m / 2)) by field.
    rewrite exp_Ropp.
    apply Rinv_lt_contravar.
    - apply Rmult_lt_0_compat; [exact Hu | apply exp_pos].
    - assert (Hne : m * m / 2 <> 0) by lra.
      pose proof (exp_ineq1 (m * m / 2) Hne). lra. }
  assert (Hpi : 2 < PI).
  { pose proof PI2_3_2. lra. }
  assert (Hi : / (m * m / 2) <= eps).
  { assert (Hmm : 2 / eps < m * m / 2).
    { unfold m in *. assert (0 < 2 / eps) by (apply Rdiv_lt_0_compat; lra).
      nra. }
    assert (Hinv : / (m * m / 2) < / (2 / eps)).
    { apply Rinv_lt_contravar; [| exact Hmm].
      apply Rmult_lt_0_compat; [apply Rdiv_lt_0_compat; lra | exact Hu]. }
    replace (/ (2 / eps)) with (eps / 2) in Hinv by (field; lra).
    lra. }
  assert (H2pi : 0 < 2 / PI < 1).
  { split; [apply Rdiv_lt_0_compat; lra |].
    apply Rmult_lt_reg_r with PI; [lra |].
    replace (2 / PI * PI) with 2 by (field; lra). lra. }
  pose proof (exp_pos (- (m * m) / 2)).
  nra.
Qed.

(** ** Numerical bounds *)

(** Taylor polynomials enclose exp (- u) for u >= 0. *)
Lemma exp_neg_T1 (u : R) : 0 <= u -> 1 - u <= exp (- u).
Proof.
  intros Hu.
  pose (F := fun v => exp (- v) - (1 - v)).
  assert (H : F 0 <= F u).
  { apply (deriv_incr F (fun v => 1 - exp (- v)) 0 u Hu).
    - intros c _. unfold F. eapply dlim_eq; [dlim | cbv beta; ring].
    - intros c Hc. pose proof (exp_nonpos_le_1 (- c)). lra. }
  unfold F in H. rewrite Ropp_0, exp_0 in H. lra.
Qed.

Lemma exp_neg_T2 (u : R) : 0 <= u -> exp (- u) <= 1 - u + u * u / 2.
Proof.
  intros Hu.
  pose (F := fun v => 1 - v + v * v / 2 - exp (- v)).
  assert (H : F 0 <= F u).
  { apply (deriv_incr F (fun v => exp (- v) - (1 - v)) 0 u Hu).
    - intros c _. unfold F.
      eapply dlim_eq; [dlim; lra | cbv beta; field].
    - intros c Hc. pose proof (exp_neg_T1 c). lra. }
  unfold F in H. rewrite Ropp_0, exp_0 in H. lra.
Qed.

Lemma exp_neg_T3 (u : R) :
  0 <= u -> 1 - u + u * u / 2 - u * u * u / 6 <= exp (- u).
Proof.
  intros Hu.
  pose (F := fun v => exp (- v) - (1 - v + v * v / 2 - v * v * v / 6)).
  assert (H : F 0 <= F u).
  { apply (deriv_incr F (fun v => 1 - v + v * v / 2 - exp (- v)) 0 u Hu).
    - intros c _. unfold F.
      eapply dlim_eq; [dlim; lra | cbv beta; field].
    - intros c Hc. pose proof (exp_neg_T2 c). lra. }
  unfold F in H. rewrite Ropp_0, exp_0 in H. lra.
Qed.

Lemma exp_neg_T4 (u : R) :
  0 <= u ->
  exp (- u)
  <= 1 - u + u * u / 2 - u * u * u / 6 + u * u * u * u / 24.
Proof.
  intros Hu.
  pose (F := fun v => 1 - v + v * v / 2 - v * v * v / 6
                      + v * v * v * v / 24 - exp (- v)).
  assert (H : F 0 <= F u).
  { apply (deriv_incr F
             (fun v => exp (- v) - (1 - v + v * v / 2 - v * v * v / 6))
             0 u Hu).
    - intros c _. unfold F.
      eapply dlim_eq; [dlim; lra | cbv beta; field].
    - intros c Hc. pose proof (exp_neg_T3 c). lra. }
  unfold F in H. rewrite Ropp_0, exp_0 in H. lra.
Qed.

Lemma PI_bounds : 314155 / 100000 <= PI <= 314208 / 100000.
Proof.
  pose proof (PI_2_3_7_ineq 1) as [Hlo Hhi].
  unfold PI_2_3_7_tg, tg_alt, Ratan_seq in Hlo, Hhi.
  simpl in Hlo, Hhi.
  split; lra.
Qed.

Lemma sqrt_2PI_bounds : 250661 / 100000 <= sqrt (2 * PI) <= 250683 / 100000.
Proof.
  pose proof PI_bounds as [Hlo Hhi].
  split.
  - rewrite <- (sqrt_square (250661 / 100000)) by lra.
    apply sqrt_le_1_alt. lra.
  - rewrite <- (sqrt_square (250683 / 100000)) by lra.
    apply sqrt_le_1_alt. lra.
Qed.

Lemma inv_sqrt_2PI_bounds :
  39891 / 100000 <= / sqrt (2 * PI) <= 39895 / 100000.
Proof.
  pose proof sqrt_2PI_bounds as [Hlo Hhi].
  pose proof sqrt_2PI_pos as Hs.
  assert (Hi : 0 < / sqrt (2 * PI)) by (apply Rinv_0_lt_compat, Hs).
  assert (H1 : sqrt (2 * PI) * / sqrt (2 * PI) = 1) by (apply Rinv_r; lra).
  split; nra.
Qed.

Lemma norm_cdf_0 : norm_cdf 0 = 0.5.
Proof.
  unfold norm_cdf, erf.
  replace (0 / sqrt 2) with 0 by (unfold Rdiv; ring).
  rewrite gauss_int_0. lra.
Qed.

Lemma norm_pdf_lower (y : R) :
  (1 - y * y / 2 + y * y * y * y / 8 - y * y * y * y * y * y / 48)
  * / sqrt (2 * PI) <= norm_pdf y.
Proof.
  unfold norm_pdf, Rdiv at 4.
  apply Rmult_le_compat_r;
    [left; apply Rinv_0_lt_compat, sqrt_2PI_pos |].
  replace (- (y * y) / 2) with (- (y * y / 2)) by field.
  assert (Hu : 0 <= y * y / 2) by nra.
  pose proof (exp_neg_T3 (y * y / 2) Hu) as H.
  eapply Rle_trans; [| exact H]. right. field.
Qed.

Lemma norm_pdf_upper (y : R) :
  norm_pdf y <= (1 - y * y / 2 + y * y * y * y / 8) * / sqrt (2 * PI).
Proof.
  unfold norm_pdf, Rdiv at 1.
  apply Rmult_le_compat_r;
    [left; apply Rinv_0_lt_compat, sqrt_2PI_pos |].
  replace (- (y * y) / 2) with (- (y * y / 2)) by field.
  assert (Hu : 0 <= y * y / 2) by nra.
  pose proof (exp_neg_T2 (y * y / 2) Hu) as H.
  eapply Rle_trans; [exact H |]. right. field.
Qed.

Definition cdf_poly_lower (x : R) : R :=
  x - x * x * x / 6 + x * x * x * x * x / 40
  - x * x * x * x * x * x * x / 336.

Definition cdf_poly_upper (x : R) : R :=
  x - x * x * x / 6 + x * x * x * x * x / 40.

Lemma norm_cdf_lower (x : R) :
  0 <= x -> 0.5 + cdf_poly_lower x * / sqrt (2 * PI) <= norm_cdf x.
Proof.
  intros Hx.
  pose (q := / sqrt (2 * PI)).
  pose (F := fun y => norm_cdf y - cdf_poly_lower y * q).
  assert (H : F 0 <= F x).
  { apply (deriv_incr F
             (fun y => norm_pdf y
                       - (1 - y * y / 2 + y * y * y * y / 8
                          - y * y * y * y * y * y / 48) * q) 0 x Hx).
    - intros c _. unfold F, cdf_poly_lower.
      eapply dlim_eq.
      + apply (derivable_pt_lim_minus norm_cdf
                 (fun y => (y - y * y * y / 6 + y * y * y * y * y / 40
                            - y * y * y * y * y * y * y / 336) * q) c).
        * apply norm_cdf_derive.
        * dlim; lra.
      + cbv beta. field.
    - intros c _. pose proof (norm_pdf_lower c). fold q in H. lra. }
  unfold F, cdf_poly_lower in H. rewrite norm_cdf_0 in H.
  unfold cdf_poly_lower. fold q. lra.
Qed.

Lemma norm_cdf_upper (x : R) :
  0 <= x -> norm_cdf x <= 0.5 + cdf_poly_upper x * / sqrt (2 * PI).
Proof.
  intros Hx.
  pose (q := / sqrt (2 * PI)).
  pose (F := fun y => cdf_poly_upper y * q - norm_cdf y).
  assert (H : F 0 <= F x).
  { apply (deriv_incr F
             (fun y => (1 - y * y / 2 + y * y * y * y / 8) * q
                       - norm_pdf y) 0 x Hx).
    - intros c _. unfold F, cdf_poly_upper.
      eapply dlim_eq.
      + apply (derivable_pt_lim_minus
                 (fun y => (y - y * y * y / 6 + y * y * y * y * y / 40) * q)
                 norm_cdf c).
        * dlim; lra.
        * apply norm_cdf_derive.
      + cbv beta. field.
    - intros c _. pose proof (norm_pdf_upper c). fold q in H. lra. }
  unfold F, cdf_poly_upper in H. rewrite norm_cdf_0 in H.
  unfold cdf_poly_upper. fold q. lra.
Qed.

Lemma norm_cdf_035 :
  63681 / 100000 <= norm_cdf (35 / 100) <= 63684 / 100000.
Proof.
  pose proof inv_sqrt_2PI_bounds as [Hlo Hhi].
  assert (Hx : 0 <= 35 / 100) by lra.
  pose proof (norm_cdf_lower _ Hx) as L.
  pose proof (norm_cdf_upper _ Hx) as U.
  unfold cdf_poly_lower in L. unfold cdf_poly_upper in U.
  split; nra.
Qed.

Lemma norm_cdf_015 :
  55961 / 100000 <= norm_cdf (15 / 100) <= 55962 / 100000.
Proof.
  pose proof inv_sqrt_2PI_bounds as [Hlo Hhi].
  assert (Hx : 0 <= 15 / 100) by lra.
  pose proof (norm_cdf_lower _ Hx) as L.
  pose proof (norm_cdf_upper _ Hx) as U.
  unfold cdf_poly_lower in L. unfold cdf_poly_upper in U.
  split; nra.
Qed.

Lemma exp_neg_005 :
  951229 / 1000000 <= exp (- (0.05 * 1)) <= 951230 / 1000000.
Proof.
  replace (- (0.05 * 1)) with (- (5 / 100)) by lra.
  assert (Hu : 0 <= 5 / 100) by lra.
  pose proof (exp_neg_T3 _ Hu) as L.
  pose proof (exp_neg_T4 _ Hu) as U.
  split; lra.
Qed.

(** ** The Python run-time model *)

(** The console is the only state the script touches. *)
Record World : Type := mkWorld {
  stdin : list string;
  stdout : list string
}.

(** The built-in exceptions the arithmetic and the console can raise.
    OverflowError arises in machine arithmetic only: no computation over
    the real numbers raises it. *)
Inductive exn : Type :=
| ZeroDivisionError
| ValueError
| OverflowError
| EOFError.

Definition exn_name (e : exn) : string :=
  match e with
  | ZeroDivisionError => "ZeroDivisionError"
  | ValueError => "ValueError"
  | OverflowError => "OverflowError"
  | EOFError => "EOFError"
  end.

Inductive outcome (A : Type) : Type :=
| Ok (a : A)
| Raise (e : exn).

Arguments Ok {A} a.
Arguments Raise {A} e.

(** A Python computation: it runs in a world and leaves a world. *)
Definition Py (A : Type) : Type := World -> outcome A * World.

Definition ret {A : Type} (a : A) : Py A := fun w => (Ok a, w).

Definition raise {A : Type} (e : exn) : Py A := fun w => (Raise e, w).

Definition bind {A B : Type} (m : Py A) (k : A -> Py B) : Py B :=
  fun w =>
    match m w with
    | (Ok a, w') => k a w'
    | (Raise e, w') => (Raise e, w')
    end.

Notation "x <- m ;; k" := (bind m (fun x => k))
  (at level 61, m at next level, right associativity).

(** [print(s)] and [input(prompt)], the console primitives of the
    script's input/output glue. *)
Definition py_print (s : string) : Py unit :=
  fun w => (Ok tt, mkWorld (stdin w) (stdout w ++ [s])).

Definition py_input (prompt : string) : Py string :=
  fun w =>
    match stdin w with
    | [] => (Raise EOFError, mkWorld [] (stdout w ++ [prompt]))
    | line :: rest => (Ok line, mkWorld rest (stdout w ++ [prompt]))
    end.

(** The arithmetic of the script in exact real arithmetic: each operation
    keeps the guard that makes Python raise and computes its result over
    the reals.  The same operations over binary64 floats are in
    [Machine]. *)

(** [x / y]: division by zero raises. *)
Definition py_div (x y : R) : Py R :=
  if Req_dec_T y 0 then raise ZeroDivisionError else ret (x / y).

(** [math.log x]: a domain error unless [x] is positive. *)
Definition math_log (x : R) : Py R :=
  if Rlt_dec 0 x then ret (ln x) else raise ValueError.

(** [math.sqrt x]: a domain error when [x] is negative. *)
Definition math_sqrt (x : R) : Py R :=
  if Rle_dec 0 x then ret (sqrt x) else raise ValueError.

(** [math.exp x]: over the reals the exponential has no range error. *)
Definition math_exp (x : R) : R := exp x.

(** ** The pricing functions *)

(** Lines 17-19: the intermediate values of the call price, in exact real
    arithmetic ([volatility ** 2] is the square, which cannot overflow). *)
Definition call_d1_d2
  (stock_price strike_price time_to_maturity risk_free_rate volatility : R)
  : Py (R * R) :=
  q <- py_div stock_price strike_price ;;
  l <- math_log q ;;
  s <- math_sqrt time_to_maturity ;;
  d1 <- py_div
          (l + (risk_free_rate + 0.5 * volatility ^ 2) * time_to_maturity)
          (volatility * s) ;;
  s' <- math_sqrt time_to_maturity ;;
  ret (d1, d1 - volatility * s').

Definition calculate_call_option_price
  (stock_price strike_price time_to_maturity risk_free_rate volatility : R)
  : Py R :=
  d <- call_d1_d2 stock_price strike_price time_to_maturity
                  risk_free_rate volatility ;;
  let d1 := fst d in
  let d2 := snd d in
  let call_price :=
    stock_price * norm_cdf d1
    - strike_price * math_exp (- risk_free_rate * time_to_maturity)
      * norm_cdf d2 in
  ret call_price.

(** Lines 39-41: the intermediate values of the put price. *)
Definition put_d1_d2
  (stock_price strike_price time_to_maturity risk_free_rate volatility : R)
  : Py (R * R) :=
  q <- py_div stock_price strike_price ;;
  l <- math_log q ;;
  s <- math_sqrt time_to_maturity ;;
  d1 <- py_div
          (l + (risk_free_rate + 0.5 * volatility ^ 2) * time_to_maturity)
          (volatility * s) ;;
  s' <- math_sqrt time_to_maturity ;;
  ret (d1, d1 - volatility * s').

Definition calculate_put_option_price
  (stock_price strike_price time_to_maturity risk_free_rate volatility : R)
  : Py R :=
  d <- put_d1_d2 stock_price strike_price time_to_maturity
                 risk_free_rate volatility ;;
  let d1 := fst d in
  let d2 := snd d in
  let put_price :=
    strike_price * math_exp (- risk_free_rate * time_to_maturity)
      * norm_cdf (- d2)
    - stock_price * norm_cdf (- d1) in
  ret put_price.

(** ** The formulas of the specification *)

Module Spec.

Definition d1 (S K T r sigma : R) : R :=
  (ln (S / K) + (r + 0.5 * sigma ^ 2) * T) / (sigma * sqrt T).

Definition d2 (S K T r sigma : R) : R :=
  d1 S K T r sigma - sigma * sqrt T.

Definition call (S K T r sigma : R) : R :=
  S * norm_cdf (d1 S K T r sigma)
  - K * exp (- (r * T)) * norm_cdf (d2 S K T r sigma).

Definition put (S K T r sigma : R) : R :=
  K * exp (- (r * T)) * norm_cdf (- d2 S K T r sigma)
  - S * norm_cdf (- d1 S K T r sigma).

End Spec.

(** ** What the pricing functions compute *)

(** The guards of the arithmetic, in the order Python evaluates them. *)
Lemma call_d1_d2_ok (S K T r sigma : R) (w : World) :
  K <> 0 -> 0 < S / K -> 0 <= T -> sigma * sqrt T <> 0 ->
  call_d1_d2 S K T r sigma w
  = (Ok (Spec.d1 S K T r sigma, Spec.d2 S K T r sigma), w).
Proof.
  intros HK Hq HT Hden.
  unfold call_d1_d2, bind, py_div, math_log, math_sqrt, ret, raise.
  destruct (Req_dec_T K 0) as [HK0 | _]; [contradiction |].
  destruct (Rlt_dec 0 (S / K)) as [_ | Hn]; [| contradiction].
  destruct (Rle_dec 0 T) as [_ | Hn]; [| contradiction].
  destruct (Req_dec_T (sigma * sqrt T) 0) as [H0 | _]; [contradiction |].
  reflexivity.
Qed.

Lemma put_d1_d2_ok (S K T r sigma : R) (w : World) :
  K <> 0 -> 0 < S / K -> 0 <= T -> sigma * sqrt T <> 0 ->
  put_d1_d2 S K T r sigma w
  = (Ok (Spec.d1 S K T r sigma, Spec.d2 S K T r sigma), w).
Proof.
  intros HK Hq HT Hden.
  unfold put_d1_d2, bind, py_div, math_log, math_sqrt, ret, raise.
  destruct (Req_dec_T K 0) as [HK0 | _]; [contradiction |].
  destruct (Rlt_dec 0 (S / K)) as [_ | Hn]; [| contradiction].
  destruct (Rle_dec 0 T) as [_ | Hn]; [| contradiction].
  destruct (Req_dec_T (sigma * sqrt T) 0) as [H0 | _]; [contradiction |].
  reflexivity.
Qed.

Lemma call_price_ok (S K T r sigma : R) (w : World) :
  K <> 0 -> 0 < S / K -> 0 <= T -> sigma * sqrt T <> 0 ->
  calculate_call_option_price S K T r sigma w
  = (Ok (Spec.call S K T r sigma), w).
Proof.
  intros HK Hq HT Hden.
  unfold calculate_call_option_price, bind.
  rewrite call_d1_d2_ok by assumption.
  unfold ret, math_exp, Spec.call. cbn [fst snd].
  rewrite <- Ropp_mult_distr_l. reflexivity.
Qed.

Lemma put_price_ok (S K T r sigma : R) (w : World) :
  K <> 0 -> 0 < S / K -> 0 <= T -> sigma * sqrt T <> 0 ->
  calculate_put_option_price S K T r sigma w
  = (Ok (Spec.put S K T r sigma), w).
Proof.
  intros HK Hq HT Hden.
  unfold calculate_put_option_price, bind.
  rewrite put_d1_d2_ok by assumption.
  unfold ret, math_exp, Spec.put. cbn [fst snd].
  rewrite <- Ropp_mult_distr_l. reflexivity.
Qed.

(** Valid market parameters pass every guard. *)
Lemma valid_guards (S K T sigma : R) :
  0 < S -> 0 < K -> 0 < T -> 0 < sigma ->
  K <> 0 /\ 0 < S / K /\ 0 <= T /\ sigma * sqrt T <> 0.
Proof.
  intros HS HK HT Hs.
  assert (HsT : 0 < sqrt T) by (apply sqrt_lt_R0; exact HT).
  repeat split.
  - lra.
  - apply Rdiv_lt_0_compat; assumption.
  - lra.
  - apply Rgt_not_eq. apply Rmult_lt_0_compat; assumption.
Qed.

(** The failing paths, in evaluation order. *)
Lemma d1_d2_zero_strike (S T r sigma : R) (w : World) :
  call_d1_d2 S 0 T r sigma w = (Raise ZeroDivisionError, w) /\
  put_d1_d2 S 0 T r sigma w = (Raise ZeroDivisionError, w).
Proof.
  unfold call_d1_d2, put_d1_d2, bind, py_div, raise.
  destruct (Req_dec_T 0 0) as [_ | Hn]; [split; reflexivity | contradiction].
Qed.

Lemma d1_d2_log_domain (S K T r sigma : R) (w : World) :
  K <> 0 -> S / K <= 0 ->
  call_d1_d2 S K T r sigma w = (Raise ValueError, w) /\
  put_d1_d2 S K T r sigma w = (Raise ValueError, w).
Proof.
  intros HK Hq.
  unfold call_d1_d2, put_d1_d2, bind, py_div, math_log, ret, raise.
  destruct (Req_dec_T K 0) as [HK0 | _]; [contradiction |].
  destruct (Rlt_dec 0 (S / K)) as [Hp | _]; [lra | split; reflexivity].
Qed.

Lemma d1_d2_sqrt_domain (S K T r sigma : R) (w : World) :
  K <> 0 -> 0 < S / K -> T < 0 ->
  call_d1_d2 S K T r sigma w = (Raise ValueError, w) /\
  put_d1_d2 S K T r sigma w = (Raise ValueError, w).
Proof.
  intros HK Hq HT.
  unfold call_d1_d2, put_d1_d2, bind, py_div, math_log, math_sqrt, ret, raise.
  destruct (Req_dec_T K 0) as [HK0 | _]; [contradiction |].
  destruct (Rlt_dec 0 (S / K)) as [_ | Hn]; [| contradiction].
  destruct (Rle_dec 0 T) as [Hp | _]; [lra | split; reflexivity].
Qed.

Lemma d1_d2_zero_denominator (S K T r sigma : R) (w : World) :
  K <> 0 -> 0 < S / K -> 0 <= T -> sigma * sqrt T = 0 ->
  call_d1_d2 S K T r sigma w = (Raise ZeroDivisionError, w) /\
  put_d1_d2 S K T r sigma w = (Raise ZeroDivisionError, w).
Proof.
  intros HK Hq HT Hden.
  unfold call_d1_d2, put_d1_d2, bind, py_div, math_log, math_sqrt, ret, raise.
  destruct (Req_dec_T K 0) as [HK0 | _]; [contradiction |].
  destruct (Rlt_dec 0 (S / K)) as [_ | Hn]; [| contradiction].
  destruct (Rle_dec 0 T) as [_ | Hn]; [| contradiction].
  destruct (Req_dec_T (sigma * sqrt T) 0) as [_ | Hn]; [| contradiction].
  split; reflexivity.
Qed.

(** A failure of the intermediate values is the failure of the price. *)
Lemma price_raises (S K T r sigma : R) (w : World) (e : exn) :
  call_d1_d2 S K T r sigma w = (Raise e, w) /\
  put_d1_d2 S K T r sigma w = (Raise e, w) ->
  calculate_call_option_price S K T r sigma w = (Raise e, w) /\
  calculate_put_option_price S K T r sigma w = (Raise e, w).
Proof.
  intros [Hc Hp].
  unfold calculate_call_option_price, calculate_put_option_price, bind.
  rewrite Hc, Hp. split; reflexivity.
Qed.

(** The empty console, for concrete runs. *)
Definition w0 : World := mkWorld [] [].

(** ** The price in normalised form *)

(** With a = sigma * sqrt T and x the logarithm of the ratio of the spot
    to the discounted strike, the call is the discounted strike times
    [bs_kernel a x]. *)
Definition bs_kernel (a x : R) : R :=
  exp x * norm_cdf (x / a + a / 2) - norm_cdf (x / a - a / 2).

Lemma norm_pdf_shift (a x : R) :
  a <> 0 -> exp x * norm_pdf (x / a + a / 2) = norm_pdf (x / a - a / 2).
Proof.
  intros Ha. unfold norm_pdf.
  set (d1 := x / a + a / 2). set (d2 := x / a - a / 2).
  assert (He : exp x * exp (- (d1 * d1) / 2) = exp (- (d2 * d2) / 2)).
  { rewrite <- exp_plus. f_equal. unfold d1, d2. field. exact Ha. }
  rewrite <- He. unfold Rdiv. ring.
Qed.

Lemma bs_kernel_derive (a x : R) :
  a <> 0 ->
  derivable_pt_lim (bs_kernel a) x (exp x * norm_cdf (x / a + a / 2)).
Proof.
  intros Ha. unfold bs_kernel.
  eapply dlim_eq.
  - dlim; cbv beta; try apply norm_cdf_derive; exact Ha.
  - cbv beta. rewrite <- (norm_pdf_shift a x Ha).
    field. exact Ha.
Qed.

Lemma bs_kernel_incr (a x1 x2 : R) :
  a <> 0 -> x1 <= x2 -> bs_kernel a x1 <= bs_kernel a x2.
Proof.
  intros Ha Hx.
  apply (deriv_incr (bs_kernel a)
           (fun x => exp x * norm_cdf (x / a + a / 2)) x1 x2 Hx).
  - intros c _. apply bs_kernel_derive, Ha.
  - intros c _. apply Rmult_le_pos; [left; apply exp_pos |].
    apply norm_cdf_bounds.
Qed.

Lemma bs_kernel_minus_exp_decr (a x1 x2 : R) :
  a <> 0 -> x1 <= x2 ->
  bs_kernel a x2 - exp x2 <= bs_kernel a x1 - exp x1.
Proof.
  intros Ha Hx.
  apply (deriv_decr (fun x => bs_kernel a x - exp x)
           (fun x => exp x * norm_cdf (x / a + a / 2) - exp x) x1 x2 Hx).
  - intros c _.
    apply (derivable_pt_lim_minus (bs_kernel a) exp c).
    + apply bs_kernel_derive, Ha.
    + apply derivable_pt_lim_exp.
  - intros c _.
    pose proof (norm_cdf_bounds (c / a + a / 2)) as [_ H1].
    pose proof (exp_pos c). nra.
Qed.

Lemma bs_kernel_nonneg (a x : R) : 0 < a -> 0 <= bs_kernel a x.
Proof.
  intros Ha.
  apply Rnot_lt_le. intros Hneg.
  destruct (norm_cdf_vanishes (- bs_kernel a x)) as [y0 Hy0]; [lra |].
  pose (x0 := Rmin x (a * (y0 + a / 2))).
  assert (Hx0 : x0 <= x) by apply Rmin_l.
  assert (Hx0' : x0 / a - a / 2 <= y0).
  { assert (H : x0 <= a * (y0 + a / 2)) by apply Rmin_r.
    apply Rmult_le_reg_l with a; [exact Ha |].
    replace (a * (x0 / a - a / 2)) with (x0 - a * (a / 2)) by (field; lra).
    lra. }
  pose proof (Hy0 _ Hx0') as Hsmall.
  assert (Hmono : bs_kernel a x0 <= bs_kernel a x).
  { apply bs_kernel_incr; [lra | exact Hx0]. }
  assert (Hlow : - norm_cdf (x0 / a - a / 2) <= bs_kernel a x0).
  { unfold bs_kernel.
    pose proof (norm_cdf_bounds (x0 / a + a / 2)) as [H1 _].
    pose proof (exp_pos x0). nra. }
  lra.
Qed.

(** The discounted strike and the normalised arguments. *)
Section Normalised.

Variables S K T r sigma : R.
Hypothesis S_pos : 0 < S.
Hypothesis K_pos : 0 < K.
Hypothesis T_pos : 0 < T.
Hypothesis sigma_pos : 0 < sigma.

Let a : R := sigma * sqrt T.
Let Kd : R := K * exp (- (r * T)).
Let x : R := ln (S / Kd).

Lemma a_pos : 0 < a.
Proof.
  unfold a. apply Rmult_lt_0_compat; [exact sigma_pos |].
  apply sqrt_lt_R0. exact T_pos.
Qed.

Lemma Kd_pos : 0 < Kd.
Proof. unfold Kd. apply Rmult_lt_0_compat; [exact K_pos | apply exp_pos]. Qed.

Lemma a_sqr : a * a = sigma * sigma * T.
Proof.
  unfold a.
  replace (sigma * sqrt T * (sigma * sqrt T))
    with (sigma * sigma * (sqrt T * sqrt T)) by ring.
  rewrite sqrt_sqrt by lra. reflexivity.
Qed.

Lemma x_eq : x = ln (S / K) + r * T.
Proof.
  unfold x, Kd.
  pose proof (exp_pos (- (r * T))) as He.
  unfold Rdiv.
  rewrite Rinv_mult, <- Rmult_assoc.
  rewrite ln_mult.
  - rewrite <- exp_Ropp, Ropp_involutive, ln_exp. reflexivity.
  - apply Rmult_lt_0_compat; [exact S_pos | apply Rinv_0_lt_compat, K_pos].
  - apply Rinv_0_lt_compat, He.
Qed.

Lemma exp_x : Kd * exp x = S.
Proof.
  unfold x. pose proof Kd_pos as HK.
  rewrite exp_ln by (apply Rdiv_lt_0_compat; [exact S_pos | exact HK]).
  field. lra.
Qed.

Lemma spec_d1_normalised : Spec.d1 S K T r sigma = x / a + a / 2.
Proof.
  pose proof a_pos as Ha. pose proof a_sqr as Hsq.
  unfold Spec.d1. fold a. rewrite x_eq, half_eq.
  apply Rmult_eq_reg_r with a; [| lra].
  replace ((ln (S / K) + r * T) / a + a / 2) with
    ((ln (S / K) + r * T + a * a / 2) / a) by (field; lra).
  rewrite Hsq. field. lra.
Qed.

Lemma spec_d2_normalised : Spec.d2 S K T r sigma = x / a - a / 2.
Proof.
  unfold Spec.d2. rewrite spec_d1_normalised. fold a. field.
  pose proof a_pos. lra.
Qed.

Lemma spec_call_normalised : Spec.call S K T r sigma = Kd * bs_kernel a x.
Proof.
  unfold Spec.call, bs_kernel.
  rewrite spec_d1_normalised, spec_d2_normalised.
  fold Kd. rewrite <- exp_x at 1. ring.
Qed.

Lemma spec_parity : Spec.call S K T r sigma - Spec.put S K T r sigma = S - Kd.
Proof.
  unfold Spec.call, Spec.put. rewrite !norm_cdf_sym. fold Kd. ring.
Qed.

End Normalised.

Lemma spec_put_normalised (S K T r sigma : R) :
  0 < S -> 0 < K -> 0 < T -> 0 < sigma ->
  Spec.put S K T r sigma
  = S * bs_kernel (sigma * sqrt T) (- ln (S / (K * exp (- (r * T))))).
Proof.
  intros HS HK HT Hs.
  pose proof (a_pos T sigma HT Hs) as Ha.
  pose proof (exp_x S K T r HS HK) as Hx.
  unfold Spec.put, bs_kernel.
  rewrite (spec_d1_normalised S K T r sigma HS HK HT Hs).
  rewrite (spec_d2_normalised S K T r sigma HS HK HT Hs).
  set (a := sigma * sqrt T) in *.
  set (x := ln (S / (K * exp (- (r * T))))) in *.
  replace (- (x / a - a / 2)) with (- x / a + a / 2) by (field; lra).
  replace (- (x / a + a / 2)) with (- x / a - a / 2) by (field; lra).
  pose proof (exp_pos x) as He.
  assert (Hk : K * exp (- (r * T)) = S * exp (- x)).
  { apply Rmult_eq_reg_r with (exp x); [| lra].
    rewrite Hx, Rmult_assoc, <- exp_plus, Rplus_opp_l, exp_0. ring. }
  rewrite Hk. ring.
Qed.

Lemma ln_nondecreasing (u v : R) : 0 < u -> u <= v -> ln u <= ln v.
Proof.
  intros Hu [Hlt | ->]; [| lra].
  left. apply ln_increasing; assumption.
Qed.

(** ** The formula on valid inputs *)

(** C1, amended: in exact real arithmetic (floats read as real numbers,
    without rounding, underflow or overflow), for S > 0, K > 0, T > 0 and
    sigma > 0 the call function returns
    S * Phi(d1) - K * exp(-r*T) * Phi(d2) and the put function returns
    K * exp(-r*T) * Phi(-d2) - S * Phi(-d1), with d1 and d2 as the
    specification defines them and Phi the standard normal distribution
    function; neither raises and neither changes the console. *)
Theorem black_scholes_formula (S K T r sigma : R) (w : World) :
  0 < S -> 0 < K -> 0 < T -> 0 < sigma ->
  calculate_call_option_price S K T r sigma w
  = (Ok (S * norm_cdf (Spec.d1 S K T r sigma)
         - K * exp (- (r * T)) * norm_cdf (Spec.d2 S K T r sigma)), w)
  /\ calculate_put_option_price S K T r sigma w
     = (Ok (K * exp (- (r * T)) * norm_cdf (- Spec.d2 S K T r sigma)
            - S * norm_cdf (- Spec.d1 S K T r sigma)), w)
  /\ Spec.d1 S K T r sigma
     = (ln (S / K) + (r + 0.5 * sigma ^ 2) * T) / (sigma * sqrt T)
  /\ Spec.d2 S K T r sigma = Spec.d1 S K T r sigma - sigma * sqrt T.
Proof.
  intros HS HK HT Hs.
  destruct (valid_guards S K T sigma HS HK HT Hs) as (G1 & G2 & G3 & G4).
  repeat split.
  - apply call_price_ok; assumption.
  - apply put_price_ok; assumption.
Qed.

Lemma black_scholes_formula_witness :
  calculate_call_option_price 100 100 1 0.05 0.2 w0
  = (Ok (100 * norm_cdf (Spec.d1 100 100 1 0.05 0.2)
         - 100 * exp (- (0.05 * 1)) * norm_cdf (Spec.d2 100 100 1 0.05 0.2)),
     w0).
Proof.
  apply (black_scholes_formula 100 100 1 0.05 0.2 w0); lra.
Defined.

(** ** Put-call parity *)

(** C2, amended: in exact real arithmetic, on valid inputs the call price
    minus the put price is S - K * exp (- r * T), exactly.  (Nothing is
    claimed of the floating-point difference.) *)
Theorem put_call_parity (S K T r sigma : R) (w : World) :
  0 < S -> 0 < K -> 0 < T -> 0 < sigma ->
  exists c p : R,
    calculate_call_option_price S K T r sigma w = (Ok c, w)
    /\ calculate_put_option_price S K T r sigma w = (Ok p, w)
    /\ c - p = S - K * exp (- (r * T)).
Proof.
  intros HS HK HT Hs.
  destruct (valid_guards S K T sigma HS HK HT Hs) as (G1 & G2 & G3 & G4).
  exists (Spec.call S K T r sigma), (Spec.put S K T r sigma).
  split; [apply call_price_ok; assumption |].
  split; [apply put_price_ok; assumption |].
  apply spec_parity.
Qed.

Lemma put_call_parity_witness :
  exists c p : R,
    calculate_call_option_price 100 100 1 0.05 0.2 w0 = (Ok c, w0)
    /\ calculate_put_option_price 100 100 1 0.05 0.2 w0 = (Ok p, w0)
    /\ c - p = 100 - 100 * exp (- (0.05 * 1)).
Proof.
  apply (put_call_parity 100 100 1 0.05 0.2 w0); lra.
Defined.

(** ** The reference scenario *)

Lemma reference_d1 : Spec.d1 100 100 1 0.05 0.2 = 35 / 100.
Proof.
  unfold Spec.d1.
  replace (100 / 100) with 1 by lra.
  rewrite ln_1, sqrt_1. lra.
Qed.

Lemma reference_d2 : Spec.d2 100 100 1 0.05 0.2 = 15 / 100.
Proof.
  unfold Spec.d2. rewrite reference_d1, sqrt_1. lra.
Qed.

(** C3: with S = 100, K = 100, T = 1, r = 0.05 and sigma = 0.2 the call
    price is within 0.01 of 10.45 and the put price within 0.01 of 5.57. *)
Theorem reference_scenario :
  exists c p : R,
    calculate_call_option_price 100 100 1 0.05 0.2 w0 = (Ok c, w0)
    /\ calculate_put_option_price 100 100 1 0.05 0.2 w0 = (Ok p, w0)
    /\ Rabs (c - 10.45) <= 0.01
    /\ Rabs (p - 5.57) <= 0.01.
Proof.
  assert (HS : 0 < 100) by lra.
  assert (HT : 0 < 1) by lra.
  assert (Hs : 0 < 0.2) by lra.
  destruct (valid_guards 100 100 1 0.2 HS HS HT Hs) as (G1 & G2 & G3 & G4).
  exists (Spec.call 100 100 1 0.05 0.2), (Spec.put 100 100 1 0.05 0.2).
  split; [apply call_price_ok; assumption |].
  split; [apply put_price_ok; assumption |].
  unfold Spec.call, Spec.put.
  rewrite reference_d1, reference_d2, !norm_cdf_sym.
  pose proof norm_cdf_035 as [A1 A2].
  pose proof norm_cdf_015 as [B1 B2].
  pose proof exp_neg_005 as [E1 E2].
  set (e := exp (- (0.05 * 1))) in *.
  set (P := norm_cdf (35 / 100)) in *.
  set (Q := norm_cdf (15 / 100)) in *.
  split; apply Rabs_le; split; nra.
Qed.

(** ** Degenerate and invalid inputs *)

(** The error classes the specification asks for. *)
Definition spec_error (e : exn) : Prop :=
  exn_name e = "ArithmeticDegeneracy"%string \/
  exn_name e = "InvalidInput"%string.

Lemma no_spec_error (e : exn) : ~ spec_error e.
Proof.
  intros [H | H]; destruct e; discriminate H.
Qed.

(** C4, as stated, fails: at S = 100, K = 100, T = 0, r = 0.05,
    sigma = 0.2 both functions raise Python's own ZeroDivisionError, which
    is neither of the error classes the specification names. *)
Lemma degenerate_not_explicit :
  calculate_call_option_price 100 100 0 0.05 0.2 w0
  = (Raise ZeroDivisionError, w0)
  /\ calculate_put_option_price 100 100 0 0.05 0.2 w0
     = (Raise ZeroDivisionError, w0)
  /\ ~ spec_error ZeroDivisionError.
Proof.
  split; [| split].
  - apply price_raises, d1_d2_zero_denominator; try lra.
    rewrite sqrt_0. lra.
  - apply price_raises, d1_d2_zero_denominator; try lra.
    rewrite sqrt_0. lra.
  - apply no_spec_error.
Qed.




(** ** Monotonicity in the spot price *)

(** C6, amended: in exact real arithmetic, with K, T, r and sigma fixed
    (K > 0, T > 0, sigma > 0) and 0 < S1 <= S2, the call price at
    S1 is at most the call price at S2 and the put price at S1 is at least
    the put price at S2. *)
Theorem price_monotone_in_spot (S1 S2 K T r sigma : R) (w : World) :
  0 < S1 -> S1 <= S2 -> 0 < K -> 0 < T -> 0 < sigma ->
  exists c1 c2 p1 p2 : R,
    calculate_call_option_price S1 K T r sigma w = (Ok c1, w)
    /\ calculate_call_option_price S2 K T r sigma w = (Ok c2, w)
    /\ calculate_put_option_price S1 K T r sigma w = (Ok p1, w)
    /\ calculate_put_option_price S2 K T r sigma w = (Ok p2, w)
    /\ c1 <= c2
    /\ p1 >= p2.
Proof.
  intros HS1 HS12 HK HT Hs.
  assert (HS2 : 0 < S2) by lra.
  destruct (valid_guards S1 K T sigma HS1 HK HT Hs) as (G1 & G2 & G3 & G4).
  destruct (valid_guards S2 K T sigma HS2 HK HT Hs) as (_ & G2' & _ & _).
  exists (Spec.call S1 K T r sigma), (Spec.call S2 K T r sigma),
         (Spec.put S1 K T r sigma), (Spec.put S2 K T r sigma).
  split; [apply call_price_ok; assumption |].
  split; [apply call_price_ok; assumption |].
  split; [apply put_price_ok; assumption |].
  split; [apply put_price_ok; assumption |].
  pose proof (spec_parity S1 K T r sigma) as P1.
  pose proof (spec_parity S2 K T r sigma) as P2.
  rewrite (spec_call_normalised S1 K T r sigma HS1 HK HT Hs) in *.
  rewrite (spec_call_normalised S2 K T r sigma HS2 HK HT Hs) in *.
  pose proof (exp_x S1 K T r HS1 HK) as E1.
  pose proof (exp_x S2 K T r HS2 HK) as E2.
  pose proof (Kd_pos K T r HK) as HKd.
  pose proof (a_pos T sigma HT Hs) as Ha.
  set (a := sigma * sqrt T) in *.
  set (Kd := K * exp (- (r * T))) in *.
  set (x1 := ln (S1 / Kd)) in *.
  set (x2 := ln (S2 / Kd)) in *.
  assert (Hx : x1 <= x2).
  { apply ln_nondecreasing.
    - apply Rdiv_lt_0_compat; assumption.
    - apply Rmult_le_compat_r; [left; apply Rinv_0_lt_compat, HKd | exact HS12]. }
  assert (Ha0 : a <> 0) by lra.
  pose proof (bs_kernel_incr a x1 x2 Ha0 Hx) as Hinc.
  pose proof (bs_kernel_minus_exp_decr a x1 x2 Ha0 Hx) as Hdec.
  split; nra.
Qed.

Lemma price_monotone_in_spot_witness :
  exists c1 c2 p1 p2 : R,
    calculate_call_option_price 90 100 1 0.05 0.2 w0 = (Ok c1, w0)
    /\ calculate_call_option_price 110 100 1 0.05 0.2 w0 = (Ok c2, w0)
    /\ calculate_put_option_price 90 100 1 0.05 0.2 w0 = (Ok p1, w0)
    /\ calculate_put_option_price 110 100 1 0.05 0.2 w0 = (Ok p2, w0)
    /\ c1 <= c2
    /\ p1 >= p2.
Proof.
  apply (price_monotone_in_spot 90 110 100 1 0.05 0.2 w0); lra.
Defined.

(** ** Non-negativity *)

(** C7: on valid inputs both prices are non-negative real numbers. *)
Theorem prices_nonnegative (S K T r sigma : R) (w : World) :
  0 < S -> 0 < K -> 0 < T -> 0 < sigma ->
  exists c p : R,
    calculate_call_option_price S K T r sigma w = (Ok c, w)
    /\ calculate_put_option_price S K T r sigma w = (Ok p, w)
    /\ 0 <= c
    /\ 0 <= p.
Proof.
  intros HS HK HT Hs.
  destruct (valid_guards S K T sigma HS HK HT Hs) as (G1 & G2 & G3 & G4).
  exists (Spec.call S K T r sigma), (Spec.put S K T r sigma).
  split; [apply call_price_ok; assumption |].
  split; [apply put_price_ok; assumption |].
  pose proof (a_pos T sigma HT Hs) as Ha.
  pose proof (Kd_pos K T r HK) as HKd.
  split.
  - rewrite (spec_call_normalised S K T r sigma HS HK HT Hs).
    apply Rmult_le_pos; [lra | apply bs_kernel_nonneg, Ha].
  - rewrite (spec_put_normalised S K T r sigma HS HK HT Hs).
    apply Rmult_le_pos; [lra | apply bs_kernel_nonneg, Ha].
Qed.

Lemma prices_nonnegative_witness :
  exists c p : R,
    calculate_call_option_price 100 100 1 0.05 0.2 w0 = (Ok c, w0)
    /\ calculate_put_option_price 100 100 1 0.05 0.2 w0 = (Ok p, w0)
    /\ 0 <= c
    /\ 0 <= p.
Proof.
  apply (prices_nonnegative 100 100 1 0.05 0.2 w0); lra.
Defined.

(** ** The duplicated intermediate computation *)

(** C9: the d1 and d2 of the call function are the d1 and d2 of the put
    function, on every input, failures included. *)
Theorem d1_d2_shared (S K T r sigma : R) (w : World) :
  call_d1_d2 S K T r sigma w = put_d1_d2 S K T r sigma w.
Proof.
  unfold call_d1_d2, put_d1_d2. reflexivity.
Qed.

(** ** Homogeneity *)

Lemma spec_d1_scale (lambda S K T r sigma : R) :
  0 < lambda -> 0 < K ->
  Spec.d1 (lambda * S) (lambda * K) T r sigma = Spec.d1 S K T r sigma.
Proof.
  intros Hl HK. unfold Spec.d1.
  replace (lambda * S / (lambda * K)) with (S / K) by (field; lra).
  reflexivity.
Qed.

(** C10, amended: in exact real arithmetic, on valid inputs, scaling the
    spot and the strike by lambda > 0 scales both prices by lambda. *)
Theorem pricing_homogeneous (lambda S K T r sigma : R) (w : World) :
  0 < S -> 0 < K -> 0 < T -> 0 < sigma -> 0 < lambda ->
  exists c p : R,
    calculate_call_option_price S K T r sigma w = (Ok c, w)
    /\ calculate_call_option_price (lambda * S) (lambda * K) T r sigma w
       = (Ok (lambda * c), w)
    /\ calculate_put_option_price S K T r sigma w = (Ok p, w)
    /\ calculate_put_option_price (lambda * S) (lambda * K) T r sigma w
       = (Ok (lambda * p), w).
Proof.
  intros HS HK HT Hs Hl.
  destruct (valid_guards S K T sigma HS HK HT Hs) as (G1 & G2 & G3 & G4).
  assert (HlS : 0 < lambda * S) by (apply Rmult_lt_0_compat; assumption).
  assert (HlK : 0 < lambda * K) by (apply Rmult_lt_0_compat; assumption).
  destruct (valid_guards (lambda * S) (lambda * K) T sigma HlS HlK HT Hs)
    as (L1 & L2 & L3 & L4).
  exists (Spec.call S K T r sigma), (Spec.put S K T r sigma).
  split; [apply call_price_ok; assumption |].
  split.
  { rewrite call_price_ok by assumption.
    unfold Spec.call, Spec.d2.
    rewrite spec_d1_scale by assumption.
    f_equal. f_equal. ring. }
  split; [apply put_price_ok; assumption |].
  rewrite put_price_ok by assumption.
  unfold Spec.put, Spec.d2.
  rewrite spec_d1_scale by assumption.
  f_equal. f_equal. ring.
Qed.

Lemma pricing_homogeneous_witness :
  exists c p : R,
    calculate_call_option_price 100 100 1 0.05 0.2 w0 = (Ok c, w0)
    /\ calculate_call_option_price (3 * 100) (3 * 100) 1 0.05 0.2 w0
       = (Ok (3 * c), w0)
    /\ calculate_put_option_price 100 100 1 0.05 0.2 w0 = (Ok p, w0)
    /\ calculate_put_option_price (3 * 100) (3 * 100) 1 0.05 0.2 w0
       = (Ok (3 * p), w0).
Proof.
  apply (pricing_homogeneous 3 100 100 1 0.05 0.2 w0); lra.
Defined.

(** ** The exact domain of the pricing functions *)

Lemma ratio_pos_iff (S K : R) : K <> 0 -> (0 < S / K <-> 0 < S * K).
Proof.
  intros HK.
  assert (HKK : 0 < K * K) by nra.
  assert (Hi : 0 < / (K * K)) by (apply Rinv_0_lt_compat, HKK).
  assert (E : S / K = S * K * / (K * K)) by (field; exact HK).
  rewrite E. split; intros H.
  - assert (H1 : S * K = S * K * / (K * K) * (K * K)) by (field; exact HK).
    rewrite H1. apply Rmult_lt_0_compat; assumption.
  - apply Rmult_lt_0_compat; assumption.
Qed.

Lemma denominator_zero_iff (T sigma : R) :
  0 <= T -> (sigma * sqrt T = 0 <-> T = 0 \/ sigma = 0).
Proof.
  intros HT. split.
  - intros H. apply Rmult_integral in H. destruct H as [H | H].
    + right. exact H.
    + left. apply sqrt_eq_0; assumption.
  - intros [-> | ->]; [rewrite sqrt_0 |]; ring.
Qed.

(** The outcome of both pricing functions on every input: which guard of
    the arithmetic, if any, stops the computation. *)
Lemma pricing_outcome (S K T r sigma : R) (w : World) :
  exists o_call o_put : outcome R,
    calculate_call_option_price S K T r sigma w = (o_call, w)
    /\ calculate_put_option_price S K T r sigma w = (o_put, w)
    /\ ((0 < S * K /\ 0 < T /\ sigma <> 0
         /\ o_call = Ok (Spec.call S K T r sigma)
         /\ o_put = Ok (Spec.put S K T r sigma))
        \/ ((K = 0 \/ (0 < S * K /\ 0 <= T /\ (T = 0 \/ sigma = 0)))
            /\ o_call = Raise ZeroDivisionError
            /\ o_put = Raise ZeroDivisionError)
        \/ (K <> 0 /\ (S * K <= 0 \/ T < 0)
            /\ o_call = Raise ValueError
            /\ o_put = Raise ValueError)).
Proof.
  destruct (Req_dec_T K 0) as [HK0 | HK].
  { subst K.
    destruct (price_raises S 0 T r sigma w _ (d1_d2_zero_strike S T r sigma w))
      as [Hc Hp].
    exists (Raise ZeroDivisionError), (Raise ZeroDivisionError).
    split; [exact Hc | split; [exact Hp |]].
    right. left. repeat split. left. reflexivity. }
  destruct (Rlt_dec 0 (S / K)) as [Hq | Hq].
  2:{ assert (Hle : S / K <= 0) by lra.
      destruct (price_raises S K T r sigma w _
                  (d1_d2_log_domain S K T r sigma w HK Hle)) as [Hc Hp].
      exists (Raise ValueError), (Raise ValueError).
      split; [exact Hc | split; [exact Hp |]].
      right. right. repeat split; [exact HK |].
      left. apply Rnot_lt_le. intros H. apply Hq.
      apply ratio_pos_iff; assumption. }
  assert (HSK : 0 < S * K) by (apply ratio_pos_iff; assumption).
  destruct (Rle_dec 0 T) as [HT | HT].
  2:{ assert (Hlt : T < 0) by lra.
      destruct (price_raises S K T r sigma w _
                  (d1_d2_sqrt_domain S K T r sigma w HK Hq Hlt)) as [Hc Hp].
      exists (Raise ValueError), (Raise ValueError).
      split; [exact Hc | split; [exact Hp |]].
      right. right. repeat split; [exact HK |]. right. exact Hlt. }
  destruct (Req_dec_T (sigma * sqrt T) 0) as [Hden | Hden].
  { destruct (price_raises S K T r sigma w _
                (d1_d2_zero_denominator S K T r sigma w HK Hq HT Hden))
      as [Hc Hp].
    exists (Raise ZeroDivisionError), (Raise ZeroDivisionError).
    split; [exact Hc | split; [exact Hp |]].
    right. left. repeat split. right. repeat split; try assumption.
    apply denominator_zero_iff; assumption. }
  exists (Ok (Spec.call S K T r sigma)), (Ok (Spec.put S K T r sigma)).
  split; [apply call_price_ok; assumption |].
  split; [apply put_price_ok; assumption |].
  left.
  assert (Hnz : ~ (T = 0 \/ sigma = 0)).
  { intros H. apply Hden. apply denominator_zero_iff; assumption. }
  repeat split; try assumption.
  - destruct HT as [HT | HT]; [exact HT |].
    exfalso. apply Hnz. left. symmetry. exact HT.
  - intros H. apply Hnz. right. exact H.
Qed.

(** X1: in exact real arithmetic a price is returned exactly when the spot and the strike are non-zero
    and of the same sign, the maturity is positive and the volatility is
    not zero; the sign of the volatility is not examined. *)
Theorem pricing_succeeds_iff (S K T r sigma : R) (w : World) :
  ((exists c : R, calculate_call_option_price S K T r sigma w = (Ok c, w))
   <-> 0 < S * K /\ 0 < T /\ sigma <> 0)
  /\ ((exists p : R, calculate_put_option_price S K T r sigma w = (Ok p, w))
      <-> 0 < S * K /\ 0 < T /\ sigma <> 0).
Proof.
  destruct (pricing_outcome S K T r sigma w)
    as (oc & op & Hc & Hp & [H | [H | H]]).
  - destruct H as (H1 & H2 & H3 & Ec & Ep). subst oc op.
    split; split; intros _; try (repeat split; assumption); eexists; eassumption.
  - destruct H as (Hcase & Ec & Ep). subst oc op.
    assert (Hno : ~ (0 < S * K /\ 0 < T /\ sigma <> 0)).
    { intros (A & B & C). destruct Hcase as [-> | (_ & _ & [-> | ->])].
      - lra.
      - lra.
      - apply C. reflexivity. }
    split; split; intros H; try contradiction;
      destruct H as [x Hx]; rewrite Hx in *; discriminate.
  - destruct H as (HK & Hcase & Ec & Ep). subst oc op.
    assert (Hno : ~ (0 < S * K /\ 0 < T /\ sigma <> 0)).
    { intros (A & B & C). destruct Hcase; lra. }
    split; split; intros H; try contradiction;
      destruct H as [x Hx]; rewrite Hx in *; discriminate.
Qed.

(** X2: in exact real arithmetic, outside the domain S * K > 0, T > 0,
    sigma <> 0, both functions raise the same built-in exception:
    ZeroDivisionError when the strike is zero or when the denominator
    sigma * sqrt T is zero, ValueError when the logarithm or the square
    root is taken outside its domain. *)
Theorem pricing_error_class (S K T r sigma : R) (w : World) :
  ~ (0 < S * K /\ 0 < T /\ sigma <> 0) ->
  exists e : exn,
    calculate_call_option_price S K T r sigma w = (Raise e, w)
    /\ calculate_put_option_price S K T r sigma w = (Raise e, w)
    /\ (e = ZeroDivisionError <-> K = 0 \/ (0 < S * K /\ 0 <= T))
    /\ (e = ValueError <-> K <> 0 /\ (S * K <= 0 \/ T < 0)).
Proof.
  intros Hbad.
  destruct (pricing_outcome S K T r sigma w)
    as (oc & op & Hc & Hp & [H | [H | H]]).
  - exfalso. apply Hbad. destruct H as (H1 & H2 & H3 & _). auto.
  - destruct H as (Hcase & Ec & Ep). subst oc op.
    exists ZeroDivisionError.
    split; [exact Hc | split; [exact Hp |]].
    split; split; intros H; try reflexivity; try discriminate.
    + destruct Hcase as [H0 | (A & B & _)]; [left; exact H0 | right; auto].
    + exfalso. destruct H as [HK Hor].
      destruct Hcase as [H0 | (A & B & _)]; [contradiction | lra].
  - destruct H as (HK & Hcase & Ec & Ep). subst oc op.
    exists ValueError.
    split; [exact Hc | split; [exact Hp |]].
    split; split; intros H; try reflexivity; try discriminate.
    + exfalso. destruct H as [H0 | (A & B)]; [contradiction | lra].
    + split; assumption.
Qed.

Lemma pricing_error_class_witness :
  exists e : exn,
    calculate_call_option_price 100 100 (-1) 0.05 0.2 w0 = (Raise e, w0)
    /\ calculate_put_option_price 100 100 (-1) 0.05 0.2 w0 = (Raise e, w0)
    /\ (e = ZeroDivisionError <-> 100 = 0 \/ (0 < 100 * 100 /\ 0 <= -1))
    /\ (e = ValueError <-> 100 <> 0 /\ (100 * 100 <= 0 \/ -1 < 0)).
Proof.
  apply (pricing_error_class 100 100 (-1) 0.05 0.2 w0).
  intros (_ & H & _). lra.
Defined.

(** ** Inputs of the wrong sign that are accepted *)

Lemma spec_d1_neg_sigma (S K T r sigma : R) :
  sigma * sqrt T <> 0 ->
  Spec.d1 S K T r (- sigma) = - Spec.d1 S K T r sigma.
Proof.
  intros Hden. unfold Spec.d1.
  replace ((- sigma) ^ 2) with (sigma ^ 2) by ring.
  assert (Hs : sigma <> 0) by (intros H; apply Hden; rewrite H; ring).
  assert (Hq : sqrt T <> 0) by (intros H; apply Hden; rewrite H; ring).
  field. repeat split; assumption.
Qed.

Lemma spec_d2_neg_sigma (S K T r sigma : R) :
  sigma * sqrt T <> 0 ->
  Spec.d2 S K T r (- sigma) = - Spec.d2 S K T r sigma.
Proof.
  intros Hden. unfold Spec.d2. rewrite spec_d1_neg_sigma by exact Hden. ring.
Qed.

(** X3: in exact real arithmetic a negative volatility is not rejected: the
    call function then returns
    the opposite of the put price at the volatility of opposite sign, the
    put function the opposite of the call price, so that neither result is
    positive. *)
Theorem negative_volatility_flips (S K T r sigma : R) (w : World) :
  0 < S -> 0 < K -> 0 < T -> 0 < sigma ->
  calculate_call_option_price S K T r (- sigma) w
  = (Ok (- Spec.put S K T r sigma), w)
  /\ calculate_put_option_price S K T r (- sigma) w
     = (Ok (- Spec.call S K T r sigma), w)
  /\ - Spec.put S K T r sigma <= 0
  /\ - Spec.call S K T r sigma <= 0.
Proof.
  intros HS HK HT Hs.
  destruct (valid_guards S K T sigma HS HK HT Hs) as (G1 & G2 & G3 & G4).
  assert (G4' : - sigma * sqrt T <> 0).
  { intros H. apply G4. lra. }
  pose proof (a_pos T sigma HT Hs) as Ha.
  pose proof (Kd_pos K T r HK) as HKd.
  assert (Hcall : 0 <= Spec.call S K T r sigma).
  { rewrite (spec_call_normalised S K T r sigma HS HK HT Hs).
    apply Rmult_le_pos; [lra | apply bs_kernel_nonneg, Ha]. }
  assert (Hput : 0 <= Spec.put S K T r sigma).
  { rewrite (spec_put_normalised S K T r sigma HS HK HT Hs).
    apply Rmult_le_pos; [lra | apply bs_kernel_nonneg, Ha]. }
  split; [| split; [| split; lra]].
  - rewrite call_price_ok by assumption.
    unfold Spec.call, Spec.put.
    rewrite spec_d1_neg_sigma, spec_d2_neg_sigma by exact G4.
    f_equal. f_equal. ring.
  - rewrite put_price_ok by assumption.
    unfold Spec.call, Spec.put.
    rewrite spec_d1_neg_sigma, spec_d2_neg_sigma by exact G4.
    rewrite !Ropp_involutive.
    f_equal. f_equal. ring.
Qed.

Lemma negative_volatility_flips_witness :
  calculate_call_option_price 100 100 1 0.05 (- (0.2)) w0
  = (Ok (- Spec.put 100 100 1 0.05 0.2), w0)
  /\ calculate_put_option_price 100 100 1 0.05 (- (0.2)) w0
     = (Ok (- Spec.call 100 100 1 0.05 0.2), w0)
  /\ - Spec.put 100 100 1 0.05 0.2 <= 0
  /\ - Spec.call 100 100 1 0.05 0.2 <= 0.
Proof.
  apply (negative_volatility_flips 100 100 1 0.05 0.2 w0); lra.
Defined.

Lemma spec_d1_neg_prices (S K T r sigma : R) :
  K <> 0 -> Spec.d1 (- S) (- K) T r sigma = Spec.d1 S K T r sigma.
Proof.
  intros HK. unfold Spec.d1.
  replace (- S / - K) with (S / K) by (field; exact HK).
  reflexivity.
Qed.

(** X4: in exact real arithmetic a negative spot with a negative strike is
    not rejected either: both
    functions return the opposite of the price of the mirrored contract,
    a number that is not positive. *)
Theorem negative_prices_mirror (S K T r sigma : R) (w : World) :
  0 < S -> 0 < K -> 0 < T -> 0 < sigma ->
  calculate_call_option_price (- S) (- K) T r sigma w
  = (Ok (- Spec.call S K T r sigma), w)
  /\ calculate_put_option_price (- S) (- K) T r sigma w
     = (Ok (- Spec.put S K T r sigma), w)
  /\ - Spec.call S K T r sigma <= 0
  /\ - Spec.put S K T r sigma <= 0.
Proof.
  intros HS HK HT Hs.
  destruct (valid_guards S K T sigma HS HK HT Hs) as (G1 & G2 & G3 & G4).
  assert (G1' : - K <> 0) by lra.
  assert (G2' : 0 < - S / - K).
  { replace (- S / - K) with (S / K) by (field; exact G1). exact G2. }
  pose proof (a_pos T sigma HT Hs) as Ha.
  pose proof (Kd_pos K T r HK) as HKd.
  assert (Hcall : 0 <= Spec.call S K T r sigma).
  { rewrite (spec_call_normalised S K T r sigma HS HK HT Hs).
    apply Rmult_le_pos; [lra | apply bs_kernel_nonneg, Ha]. }
  assert (Hput : 0 <= Spec.put S K T r sigma).
  { rewrite (spec_put_normalised S K T r sigma HS HK HT Hs).
    apply Rmult_le_pos; [lra | apply bs_kernel_nonneg, Ha]. }
  split; [| split; [| split; lra]].
  - rewrite call_price_ok by assumption.
    unfold Spec.call, Spec.d2.
    rewrite spec_d1_neg_prices by exact G1.
    f_equal. f_equal. ring.
  - rewrite put_price_ok by assumption.
    unfold Spec.put, Spec.d2.
    rewrite spec_d1_neg_prices by exact G1.
    f_equal. f_equal. ring.
Qed.

Lemma negative_prices_mirror_witness :
  calculate_call_option_price (- (100)) (- (100)) 1 0.05 0.2 w0
  = (Ok (- Spec.call 100 100 1 0.05 0.2), w0)
  /\ calculate_put_option_price (- (100)) (- (100)) 1 0.05 0.2 w0
     = (Ok (- Spec.put 100 100 1 0.05 0.2), w0)
  /\ - Spec.call 100 100 1 0.05 0.2 <= 0
  /\ - Spec.put 100 100 1 0.05 0.2 <= 0.
Proof.
  apply (negative_prices_mirror 100 100 1 0.05 0.2 w0); lra.
Defined.

(** ** Strict bounds on the normal distribution function *)

Lemma deriv_strict_incr (F f : R -> R) (a b : R) :
  a < b ->
  (forall c, a <= c <= b -> derivable_pt_lim F c (f c)) ->
  (forall c, a <= c <= b -> 0 < f c) ->
  F a < F b.
Proof.
  intros Hab HD Hpos.
  destruct (MVT_cor2 F f a b Hab HD) as [c [Hc Hin]].
  assert (0 < f c) by (apply Hpos; lra).
  assert (0 < f c * (b - a)) by (apply Rmult_lt_0_compat; lra).
  lra.
Qed.

Lemma norm_cdf_strict_incr (a b : R) : a < b -> norm_cdf a < norm_cdf b.
Proof.
  intros Hab.
  apply (deriv_strict_incr norm_cdf norm_pdf a b Hab).
  - intros c _. apply norm_cdf_derive.
  - intros c _. apply norm_pdf_pos.
Qed.

Lemma norm_cdf_strict_bounds (x : R) : 0 < norm_cdf x < 1.
Proof.
  assert (Hpos : forall y, 0 < norm_cdf y).
  { intros y.
    apply Rle_lt_trans with (norm_cdf (y - 1)).
    - apply norm_cdf_bounds.
    - apply norm_cdf_strict_incr. lra. }
  split; [apply Hpos |].
  pose proof (Hpos (- x)) as H. rewrite norm_cdf_sym in H. lra.
Qed.

Lemma bs_kernel_strict_incr (a x1 x2 : R) :
  a <> 0 -> x1 < x2 -> bs_kernel a x1 < bs_kernel a x2.
Proof.
  intros Ha Hx.
  apply (deriv_strict_incr (bs_kernel a)
           (fun x => exp x * norm_cdf (x / a + a / 2)) x1 x2 Hx).
  - intros c _. apply bs_kernel_derive, Ha.
  - intros c _. apply Rmult_lt_0_compat; [apply exp_pos |].
    apply norm_cdf_strict_bounds.
Qed.

Lemma bs_kernel_pos (a x : R) : 0 < a -> 0 < bs_kernel a x.
Proof.
  intros Ha.
  apply Rle_lt_trans with (bs_kernel a (x - 1)).
  - apply bs_kernel_nonneg, Ha.
  - apply bs_kernel_strict_incr; lra.
Qed.

Lemma bs_kernel_minus_exp_strict_decr (a x1 x2 : R) :
  a <> 0 -> x1 < x2 ->
  bs_kernel a x2 - exp x2 < bs_kernel a x1 - exp x1.
Proof.
  intros Ha Hx.
  assert (H : - (bs_kernel a x1 - exp x1) < - (bs_kernel a x2 - exp x2)).
  { apply (deriv_strict_incr (fun x => - (bs_kernel a x - exp x))
             (fun x => - (exp x * norm_cdf (x / a + a / 2) - exp x))
             x1 x2 Hx).
    - intros c _.
      apply (derivable_pt_lim_opp (fun x => bs_kernel a x - exp x) c).
      apply (derivable_pt_lim_minus (bs_kernel a) exp c).
      + apply bs_kernel_derive, Ha.
      + apply derivable_pt_lim_exp.
    - intros c _.
      pose proof (norm_cdf_strict_bounds (c / a + a / 2)) as [_ H1].
      pose proof (exp_pos c). nra. }
  lra.
Qed.

(** The kernel below the exponential: the call is worth less than the
    spot. *)
Lemma bs_kernel_lt_exp (a x : R) : bs_kernel a x < exp x.
Proof.
  unfold bs_kernel.
  pose proof (norm_cdf_strict_bounds (x / a + a / 2)) as [_ H1].
  pose proof (norm_cdf_strict_bounds (x / a - a / 2)) as [H2 _].
  pose proof (exp_pos x). nra.
Qed.

(** ** No-arbitrage bounds *)

(** X5: in exact real arithmetic, on valid inputs, the call price lies
    strictly between
    max (S - K exp (- r T), 0) and S, and the put price strictly between
    max (K exp (- r T) - S, 0) and K exp (- r T). *)
Theorem price_bounds (S K T r sigma : R) (w : World) :
  0 < S -> 0 < K -> 0 < T -> 0 < sigma ->
  exists c p : R,
    calculate_call_option_price S K T r sigma w = (Ok c, w)
    /\ calculate_put_option_price S K T r sigma w = (Ok p, w)
    /\ Rmax (S - K * exp (- (r * T))) 0 < c < S
    /\ Rmax (K * exp (- (r * T)) - S) 0 < p < K * exp (- (r * T)).
Proof.
  intros HS HK HT Hs.
  destruct (valid_guards S K T sigma HS HK HT Hs) as (G1 & G2 & G3 & G4).
  exists (Spec.call S K T r sigma), (Spec.put S K T r sigma).
  split; [apply call_price_ok; assumption |].
  split; [apply put_price_ok; assumption |].
  pose proof (a_pos T sigma HT Hs) as Ha.
  pose proof (Kd_pos K T r HK) as HKd.
  pose proof (spec_parity S K T r sigma) as Hpar.
  assert (Hc : 0 < Spec.call S K T r sigma).
  { rewrite (spec_call_normalised S K T r sigma HS HK HT Hs).
    apply Rmult_lt_0_compat; [lra | apply bs_kernel_pos, Ha]. }
  assert (Hp : 0 < Spec.put S K T r sigma).
  { rewrite (spec_put_normalised S K T r sigma HS HK HT Hs).
    apply Rmult_lt_0_compat; [lra | apply bs_kernel_pos, Ha]. }
  assert (Hlt : Spec.call S K T r sigma < S).
  { rewrite (spec_call_normalised S K T r sigma HS HK HT Hs).
    rewrite <- (exp_x S K T r HS HK) at 2.
    apply Rmult_lt_compat_l; [exact HKd | apply bs_kernel_lt_exp]. }
  set (Kd := K * exp (- (r * T))) in *.
  split; split.
  - apply Rmax_lub_lt; lra.
  - lra.
  - apply Rmax_lub_lt; lra.
  - lra.
Qed.

Lemma price_bounds_witness :
  exists c p : R,
    calculate_call_option_price 100 100 1 0.05 0.2 w0 = (Ok c, w0)
    /\ calculate_put_option_price 100 100 1 0.05 0.2 w0 = (Ok p, w0)
    /\ Rmax (100 - 100 * exp (- (0.05 * 1))) 0 < c < 100
    /\ Rmax (100 * exp (- (0.05 * 1)) - 100) 0 < p < 100 * exp (- (0.05 * 1)).
Proof.
  apply (price_bounds 100 100 1 0.05 0.2 w0); lra.
Defined.

(** ** Sensitivity to the spot, the strike and the volatility *)

(** X6: in exact real arithmetic, on valid inputs, when the spot rises from
    S1 to S2 the call price rises, by less than
    S2 - S1, and the put price falls, by less than S2 - S1. *)
Theorem spot_sensitivity (S1 S2 K T r sigma : R) (w : World) :
  0 < S1 -> S1 < S2 -> 0 < K -> 0 < T -> 0 < sigma ->
  exists c1 c2 p1 p2 : R,
    calculate_call_option_price S1 K T r sigma w = (Ok c1, w)
    /\ calculate_call_option_price S2 K T r sigma w = (Ok c2, w)
    /\ calculate_put_option_price S1 K T r sigma w = (Ok p1, w)
    /\ calculate_put_option_price S2 K T r sigma w = (Ok p2, w)
    /\ 0 < c2 - c1 < S2 - S1
    /\ 0 < p1 - p2 < S2 - S1.
Proof.
  intros HS1 HS12 HK HT Hs.
  assert (HS2 : 0 < S2) by lra.
  destruct (valid_guards S1 K T sigma HS1 HK HT Hs) as (G1 & G2 & G3 & G4).
  destruct (valid_guards S2 K T sigma HS2 HK HT Hs) as (_ & G2' & _ & _).
  exists (Spec.call S1 K T r sigma), (Spec.call S2 K T r sigma),
         (Spec.put S1 K T r sigma), (Spec.put S2 K T r sigma).
  split; [apply call_price_ok; assumption |].
  split; [apply call_price_ok; assumption |].
  split; [apply put_price_ok; assumption |].
  split; [apply put_price_ok; assumption |].
  pose proof (spec_parity S1 K T r sigma) as P1.
  pose proof (spec_parity S2 K T r sigma) as P2.
  rewrite (spec_call_normalised S1 K T r sigma HS1 HK HT Hs) in *.
  rewrite (spec_call_normalised S2 K T r sigma HS2 HK HT Hs) in *.
  pose proof (exp_x S1 K T r HS1 HK) as E1.
  pose proof (exp_x S2 K T r HS2 HK) as E2.
  pose proof (Kd_pos K T r HK) as HKd.
  pose proof (a_pos T sigma HT Hs) as Ha.
  set (a := sigma * sqrt T) in *.
  set (Kd := K * exp (- (r * T))) in *.
  set (x1 := ln (S1 / Kd)) in *.
  set (x2 := ln (S2 / Kd)) in *.
  assert (Hx : x1 < x2).
  { apply ln_increasing.
    - apply Rdiv_lt_0_compat; assumption.
    - apply Rmult_lt_compat_r; [apply Rinv_0_lt_compat, HKd | exact HS12]. }
  assert (Ha0 : a <> 0) by lra.
  pose proof (bs_kernel_strict_incr a x1 x2 Ha0 Hx) as Hinc.
  pose proof (bs_kernel_minus_exp_strict_decr a x1 x2 Ha0 Hx) as Hdec.
  split; split; nra.
Qed.

Lemma spot_sensitivity_witness :
  exists c1 c2 p1 p2 : R,
    calculate_call_option_price 90 100 1 0.05 0.2 w0 = (Ok c1, w0)
    /\ calculate_call_option_price 110 100 1 0.05 0.2 w0 = (Ok c2, w0)
    /\ calculate_put_option_price 90 100 1 0.05 0.2 w0 = (Ok p1, w0)
    /\ calculate_put_option_price 110 100 1 0.05 0.2 w0 = (Ok p2, w0)
    /\ 0 < c2 - c1 < 110 - 90
    /\ 0 < p1 - p2 < 110 - 90.
Proof.
  apply (spot_sensitivity 90 110 100 1 0.05 0.2 w0); lra.
Defined.

Lemma neg_log_moneyness (S Kd : R) :
  0 < S -> 0 < Kd -> - ln (S / Kd) = ln (Kd / S).
Proof.
  intros HS HKd.
  rewrite <- ln_Rinv by (apply Rdiv_lt_0_compat; assumption).
  f_equal. field. lra.
Qed.

Lemma exp_y (S Kd : R) : 0 < S -> 0 < Kd -> S * exp (ln (Kd / S)) = Kd.
Proof.
  intros HS HKd.
  rewrite exp_ln by (apply Rdiv_lt_0_compat; assumption).
  field. lra.
Qed.

(** X7: in exact real arithmetic, on valid inputs, when the strike rises
    from K1 to K2 the put price rises and the call
    price falls, each by less than the discounted rise of the strike. *)
Theorem strike_sensitivity (S K1 K2 T r sigma : R) (w : World) :
  0 < S -> 0 < K1 -> K1 < K2 -> 0 < T -> 0 < sigma ->
  exists c1 c2 p1 p2 : R,
    calculate_call_option_price S K1 T r sigma w = (Ok c1, w)
    /\ calculate_call_option_price S K2 T r sigma w = (Ok c2, w)
    /\ calculate_put_option_price S K1 T r sigma w = (Ok p1, w)
    /\ calculate_put_option_price S K2 T r sigma w = (Ok p2, w)
    /\ 0 < c1 - c2 < (K2 - K1) * exp (- (r * T))
    /\ 0 < p2 - p1 < (K2 - K1) * exp (- (r * T)).
Proof.
  intros HS HK1 HK12 HT Hs.
  assert (HK2 : 0 < K2) by lra.
  destruct (valid_guards S K1 T sigma HS HK1 HT Hs) as (G1 & G2 & G3 & G4).
  destruct (valid_guards S K2 T sigma HS HK2 HT Hs) as (G1' & G2' & _ & _).
  exists (Spec.call S K1 T r sigma), (Spec.call S K2 T r sigma),
         (Spec.put S K1 T r sigma), (Spec.put S K2 T r sigma).
  split; [apply call_price_ok; assumption |].
  split; [apply call_price_ok; assumption |].
  split; [apply put_price_ok; assumption |].
  split; [apply put_price_ok; assumption |].
  pose proof (spec_parity S K1 T r sigma) as P1.
  pose proof (spec_parity S K2 T r sigma) as P2.
  rewrite (spec_put_normalised S K1 T r sigma HS HK1 HT Hs) in *.
  rewrite (spec_put_normalised S K2 T r sigma HS HK2 HT Hs) in *.
  pose proof (Kd_pos K1 T r HK1) as HKd1.
  pose proof (Kd_pos K2 T r HK2) as HKd2.
  pose proof (a_pos T sigma HT Hs) as Ha.
  pose proof (exp_pos (- (r * T))) as He.
  rewrite !neg_log_moneyness in * by assumption.
  pose proof (exp_y S _ HS HKd1) as E1.
  pose proof (exp_y S _ HS HKd2) as E2.
  assert (HKd : K1 * exp (- (r * T)) < K2 * exp (- (r * T))).
  { apply Rmult_lt_compat_r; assumption. }
  set (a := sigma * sqrt T) in *.
  set (Kd1 := K1 * exp (- (r * T))) in *.
  set (Kd2 := K2 * exp (- (r * T))) in *.
  set (y1 := ln (Kd1 / S)) in *.
  set (y2 := ln (Kd2 / S)) in *.
  assert (Hy : y1 < y2).
  { apply ln_increasing.
    - apply Rdiv_lt_0_compat; assumption.
    - apply Rmult_lt_compat_r; [apply Rinv_0_lt_compat, HS | exact HKd]. }
  assert (Ha0 : a <> 0) by lra.
  pose proof (bs_kernel_strict_incr a y1 y2 Ha0 Hy) as Hinc.
  pose proof (bs_kernel_minus_exp_strict_decr a y1 y2 Ha0 Hy) as Hdec.
  replace ((K2 - K1) * exp (- (r * T))) with (Kd2 - Kd1)
    by (unfold Kd1, Kd2; ring).
  split; split; nra.
Qed.

Lemma strike_sensitivity_witness :
  exists c1 c2 p1 p2 : R,
    calculate_call_option_price 100 90 1 0.05 0.2 w0 = (Ok c1, w0)
    /\ calculate_call_option_price 100 110 1 0.05 0.2 w0 = (Ok c2, w0)
    /\ calculate_put_option_price 100 90 1 0.05 0.2 w0 = (Ok p1, w0)
    /\ calculate_put_option_price 100 110 1 0.05 0.2 w0 = (Ok p2, w0)
    /\ 0 < c1 - c2 < (110 - 90) * exp (- (0.05 * 1))
    /\ 0 < p2 - p1 < (110 - 90) * exp (- (0.05 * 1)).
Proof.
  apply (strike_sensitivity 100 90 110 1 0.05 0.2 w0); lra.
Defined.

(** The kernel as a function of the total volatility a. *)
Lemma bs_kernel_derive_vol (x a : R) :
  a <> 0 ->
  derivable_pt_lim (fun b => bs_kernel b x) a (norm_pdf (x / a - a / 2)).
Proof.
  intros Ha. unfold bs_kernel.
  eapply dlim_eq.
  - dlim; cbv beta; try apply norm_cdf_derive; exact Ha.
  - cbv beta. rewrite <- (norm_pdf_shift a x Ha).
    field. exact Ha.
Qed.

Lemma bs_kernel_vol_strict_incr (x a1 a2 : R) :
  0 < a1 -> a1 < a2 -> bs_kernel a1 x < bs_kernel a2 x.
Proof.
  intros Ha1 Ha12.
  apply (deriv_strict_incr (fun b => bs_kernel b x)
           (fun b => norm_pdf (x / b - b / 2)) a1 a2 Ha12).
  - intros c Hc. apply bs_kernel_derive_vol. lra.
  - intros c _. apply norm_pdf_pos.
Qed.

(** X8: in exact real arithmetic, on valid inputs, both prices rise with
    the volatility. *)
Theorem volatility_sensitivity (S K T r sigma1 sigma2 : R) (w : World) :
  0 < S -> 0 < K -> 0 < T -> 0 < sigma1 -> sigma1 < sigma2 ->
  exists c1 c2 p1 p2 : R,
    calculate_call_option_price S K T r sigma1 w = (Ok c1, w)
    /\ calculate_call_option_price S K T r sigma2 w = (Ok c2, w)
    /\ calculate_put_option_price S K T r sigma1 w = (Ok p1, w)
    /\ calculate_put_option_price S K T r sigma2 w = (Ok p2, w)
    /\ c1 < c2
    /\ p1 < p2.
Proof.
  intros HS HK HT Hs1 Hs12.
  assert (Hs2 : 0 < sigma2) by lra.
  destruct (valid_guards S K T sigma1 HS HK HT Hs1) as (G1 & G2 & G3 & G4).
  destruct (valid_guards S K T sigma2 HS HK HT Hs2) as (_ & _ & _ & G4').
  exists (Spec.call S K T r sigma1), (Spec.call S K T r sigma2),
         (Spec.put S K T r sigma1), (Spec.put S K T r sigma2).
  split; [apply call_price_ok; assumption |].
  split; [apply call_price_ok; assumption |].
  split; [apply put_price_ok; assumption |].
  split; [apply put_price_ok; assumption |].
  pose proof (Kd_pos K T r HK) as HKd.
  pose proof (a_pos T sigma1 HT Hs1) as Ha1.
  assert (Ha12 : sigma1 * sqrt T < sigma2 * sqrt T).
  { apply Rmult_lt_compat_r; [apply sqrt_lt_R0; exact HT | exact Hs12]. }
  split.
  - rewrite (spec_call_normalised S K T r sigma1 HS HK HT Hs1).
    rewrite (spec_call_normalised S K T r sigma2 HS HK HT Hs2).
    apply Rmult_lt_compat_l; [exact HKd |].
    apply bs_kernel_vol_strict_incr; assumption.
  - rewrite (spec_put_normalised S K T r sigma1 HS HK HT Hs1).
    rewrite (spec_put_normalised S K T r sigma2 HS HK HT Hs2).
    apply Rmult_lt_compat_l; [exact HS |].
    apply bs_kernel_vol_strict_incr; assumption.
Qed.

Lemma volatility_sensitivity_witness :
  exists c1 c2 p1 p2 : R,
    calculate_call_option_price 100 100 1 0.05 0.2 w0 = (Ok c1, w0)
    /\ calculate_call_option_price 100 100 1 0.05 0.3 w0 = (Ok c2, w0)
    /\ calculate_put_option_price 100 100 1 0.05 0.2 w0 = (Ok p1, w0)
    /\ calculate_put_option_price 100 100 1 0.05 0.3 w0 = (Ok p2, w0)
    /\ c1 < c2
    /\ p1 < p2.
Proof.
  apply (volatility_sensitivity 100 100 1 0.05 0.2 0.3 w0); lra.
Defined.

(** ** Put-call symmetry *)

(** X9: in exact real arithmetic, on valid inputs, the call on spot S and
    strike K is worth the put on spot
    K exp (- r T) and strike S exp (r T): exchanging the discounted strike
    and the spot exchanges the two functions. *)
Theorem put_call_symmetry (S K T r sigma : R) (w : World) :
  0 < S -> 0 < K -> 0 < T -> 0 < sigma ->
  exists c : R,
    calculate_call_option_price S K T r sigma w = (Ok c, w)
    /\ calculate_put_option_price
         (K * exp (- (r * T))) (S * exp (r * T)) T r sigma w = (Ok c, w).
Proof.
  intros HS HK HT Hs.
  destruct (valid_guards S K T sigma HS HK HT Hs) as (G1 & G2 & G3 & G4).
  pose proof (Kd_pos K T r HK) as HKd.
  assert (HSe : 0 < S * exp (r * T)).
  { apply Rmult_lt_0_compat; [exact HS | apply exp_pos]. }
  destruct (valid_guards _ _ T sigma HKd HSe HT Hs) as (F1 & F2 & F3 & F4).
  exists (Spec.call S K T r sigma).
  split; [apply call_price_ok; assumption |].
  rewrite put_price_ok by assumption.
  f_equal. f_equal.
  rewrite (spec_call_normalised S K T r sigma HS HK HT Hs).
  rewrite (spec_put_normalised _ _ T r sigma HKd HSe HT Hs).
  assert (E : S * exp (r * T) * exp (- (r * T)) = S).
  { rewrite Rmult_assoc, <- exp_plus, Rplus_opp_r, exp_0. ring. }
  rewrite E.
  rewrite neg_log_moneyness by assumption.
  reflexivity.
Qed.

Lemma put_call_symmetry_witness :
  exists c : R,
    calculate_call_option_price 100 100 1 0.05 0.2 w0 = (Ok c, w0)
    /\ calculate_put_option_price
         (100 * exp (- (0.05 * 1))) (100 * exp (0.05 * 1)) 1 0.05 0.2 w0
       = (Ok c, w0).
Proof.
  apply (put_call_symmetry 100 100 1 0.05 0.2 w0); lra.
Defined.

(** ** The limit of vanishing volatility *)

Lemma bs_kernel_reflect (a x : R) :
  a <> 0 -> bs_kernel a x - exp x + 1 = exp x * bs_kernel a (- x).
Proof.
  intros Ha. unfold bs_kernel.
  replace (- x / a + a / 2) with (- (x / a - a / 2)) by (field; exact Ha).
  replace (- x / a - a / 2) with (- (x / a + a / 2)) by (field; exact Ha).
  rewrite !norm_cdf_sym.
  assert (E : exp x * exp (- x) = 1).
  { rewrite <- exp_plus, Rplus_opp_r. apply exp_0. }
  set (P := norm_cdf (x / a + a / 2)).
  set (Q := norm_cdf (x / a - a / 2)).
  replace (exp x * (exp (- x) * (1 - Q) - (1 - P)))
    with (exp x * exp (- x) * (1 - Q) - exp x * (1 - P)) by ring.
  rewrite E. ring.
Qed.

Lemma norm_pdf_le_1 (c : R) : norm_pdf c <= 1.
Proof.
  unfold norm_pdf.
  pose proof sqrt_2PI_bounds as [Hlo _].
  pose proof sqrt_2PI_pos as Hs.
  assert (He : 0 < exp (- (c * c) / 2) <= 1).
  { split; [apply exp_pos | apply exp_nonpos_le_1; nra]. }
  apply Rmult_le_reg_r with (sqrt (2 * PI)); [exact Hs |].
  replace (exp (- (c * c) / 2) / sqrt (2 * PI) * sqrt (2 * PI))
    with (exp (- (c * c) / 2)) by (field; lra).
  lra.
Qed.

Lemma bs_kernel_small_zero (a eps : R) :
  0 < a -> a < eps -> bs_kernel a 0 < eps.
Proof.
  intros Ha Heps. unfold bs_kernel.
  rewrite exp_0.
  replace (0 / a + a / 2) with (a / 2) by (field; lra).
  replace (0 / a - a / 2) with (- (a / 2)) by (field; lra).
  rewrite norm_cdf_sym.
  assert (H : Rabs (norm_cdf (a / 2) - norm_cdf 0) <= 1 * Rabs (a / 2 - 0)).
  { apply (deriv_bound norm_cdf norm_pdf 0 (a / 2) 1).
    - intros c _. apply norm_cdf_derive.
    - intros c _. rewrite Rabs_pos_eq by (left; apply norm_pdf_pos).
      apply norm_pdf_le_1. }
  rewrite norm_cdf_0 in H.
  rewrite (Rabs_pos_eq (a / 2 - 0)) in H by lra.
  pose proof (Rle_abs (norm_cdf (a / 2) - 0.5)) as Hle.
  lra.
Qed.

Lemma bs_kernel_small_neg (y eps : R) :
  y < 0 -> 0 < eps ->
  exists d : R, 0 < d /\ forall a, 0 < a -> a < d -> bs_kernel a y < eps.
Proof.
  intros Hy Heps.
  destruct (norm_cdf_vanishes eps Heps) as [y0 Hy0].
  pose (m := Rmax 1 (- y0)).
  assert (Hm1 : 1 <= m) by apply Rmax_l.
  assert (Hm2 : - m <= y0).
  { pose proof (Rmax_r 1 (- y0)). unfold m. lra. }
  assert (Hq : 0 < - y / (m + / 2)).
  { apply Rdiv_lt_0_compat; lra. }
  exists (Rmin 1 (- y / (m + / 2))).
  split; [apply Rmin_pos; [lra | exact Hq] |].
  intros a Ha Had.
  assert (Ha1 : a < 1).
  { eapply Rlt_le_trans; [exact Had | apply Rmin_l]. }
  assert (Ha2 : a < - y / (m + / 2)).
  { eapply Rlt_le_trans; [exact Had | apply Rmin_r]. }
  assert (Hd1 : y / a + a / 2 <= y0).
  { assert (H1 : a * (m + / 2) < - y).
    { apply Rmult_lt_reg_r with (/ (m + / 2));
        [apply Rinv_0_lt_compat; lra |].
      replace (a * (m + / 2) * / (m + / 2)) with a by (field; lra).
      exact Ha2. }
    assert (H2 : y / a < - (m + / 2)).
    { apply Rmult_lt_reg_r with a; [exact Ha |].
      replace (y / a * a) with y by (field; lra). lra. }
    lra. }
  unfold bs_kernel.
  pose proof (Hy0 _ Hd1) as Hsmall.
  pose proof (norm_cdf_strict_bounds (y / a + a / 2)) as [H1 _].
  pose proof (norm_cdf_strict_bounds (y / a - a / 2)) as [H2 _].
  assert (He : 0 < exp y < 1).
  { split; [apply exp_pos |]. rewrite <- exp_0. apply exp_increasing, Hy. }
  nra.
Qed.

(** The kernel tends to max (exp x - 1, 0) from above as a tends to 0. *)
Lemma bs_kernel_small_vol (x eps : R) :
  0 < eps ->
  exists d : R,
    0 < d /\
    forall a, 0 < a -> a < d ->
      0 < bs_kernel a x - Rmax (exp x - 1) 0 < eps.
Proof.
  intros Heps.
  assert (Hlow : forall a, 0 < a -> 0 < bs_kernel a x - Rmax (exp x - 1) 0).
  { intros a Ha.
    assert (Ha0 : a <> 0) by lra.
    pose proof (bs_kernel_pos a x Ha) as H1.
    pose proof (bs_kernel_pos a (- x) Ha) as H2.
    pose proof (bs_kernel_reflect a x Ha0) as H3.
    pose proof (exp_pos x) as He.
    assert (0 < exp x * bs_kernel a (- x)) by (apply Rmult_lt_0_compat; lra).
    assert (Hm : Rmax (exp x - 1) 0 < bs_kernel a x)
      by (apply Rmax_lub_lt; lra).
    lra. }
  destruct (Rtotal_order x 0) as [Hx | [Hx | Hx]].
  - destruct (bs_kernel_small_neg x eps Hx Heps) as (d & Hd & Hsmall).
    exists d. split; [exact Hd |].
    intros a Ha Had. split; [apply Hlow, Ha |].
    assert (He : exp x < 1).
    { rewrite <- exp_0. apply exp_increasing, Hx. }
    rewrite Rmax_right by lra.
    pose proof (Hsmall a Ha Had). lra.
  - subst x. exists eps. split; [exact Heps |].
    intros a Ha Had. split; [apply Hlow, Ha |].
    rewrite exp_0, Rmax_right by lra.
    pose proof (bs_kernel_small_zero a eps Ha Had). lra.
  - pose proof (exp_pos x) as He.
    assert (Heps' : 0 < eps / exp x) by (apply Rdiv_lt_0_compat; lra).
    assert (Hnx : - x < 0) by lra.
    destruct (bs_kernel_small_neg (- x) (eps / exp x) Hnx Heps')
      as (d & Hd & Hsmall).
    exists d. split; [exact Hd |].
    intros a Ha Had. split; [apply Hlow, Ha |].
    assert (Ha0 : a <> 0) by lra.
    assert (He1 : 1 < exp x).
    { rewrite <- exp_0. apply exp_increasing, Hx. }
    rewrite Rmax_left by lra.
    pose proof (bs_kernel_reflect a x Ha0) as H3.
    pose proof (Hsmall a Ha Had) as H4.
    assert (H5 : exp x * bs_kernel a (- x) < exp x * (eps / exp x)).
    { apply Rmult_lt_compat_l; assumption. }
    replace (exp x * (eps / exp x)) with eps in H5 by (field; lra).
    lra.
Qed.

(** X10: in exact real arithmetic, as the volatility tends to 0 from above,
    the call price tends to
    max (S - K exp (- r T), 0) and the put price to
    max (K exp (- r T) - S, 0), each from above. *)
Theorem zero_volatility_limit (S K T r eps : R) :
  0 < S -> 0 < K -> 0 < T -> 0 < eps ->
  exists delta : R,
    0 < delta /\
    forall (sigma : R) (w : World), 0 < sigma -> sigma < delta ->
      exists c p : R,
        calculate_call_option_price S K T r sigma w = (Ok c, w)
        /\ calculate_put_option_price S K T r sigma w = (Ok p, w)
        /\ 0 < c - Rmax (S - K * exp (- (r * T))) 0 < eps
        /\ 0 < p - Rmax (K * exp (- (r * T)) - S) 0 < eps.
Proof.
  intros HS HK HT Heps.
  pose proof (Kd_pos K T r HK) as HKd.
  pose proof (exp_x S K T r HS HK) as Ex.
  assert (HsT : 0 < sqrt T) by (apply sqrt_lt_R0; exact HT).
  set (Kd := K * exp (- (r * T))) in *.
  set (x := ln (S / Kd)) in *.
  assert (Heps' : 0 < eps / Kd) by (apply Rdiv_lt_0_compat; assumption).
  destruct (bs_kernel_small_vol x (eps / Kd) Heps') as (d & Hd & Hsmall).
  exists (d / sqrt T).
  split; [apply Rdiv_lt_0_compat; assumption |].
  intros sigma w Hs Hsd.
  destruct (valid_guards S K T sigma HS HK HT Hs) as (G1 & G2 & G3 & G4).
  exists (Spec.call S K T r sigma), (Spec.put S K T r sigma).
  split; [apply call_price_ok; assumption |].
  split; [apply put_price_ok; assumption |].
  pose proof (spec_parity S K T r sigma) as Hpar. fold Kd in Hpar.
  rewrite (spec_call_normalised S K T r sigma HS HK HT Hs) in *.
  fold Kd in Hpar |- *. fold x in Hpar |- *.
  pose proof (a_pos T sigma HT Hs) as Ha.
  assert (Had : sigma * sqrt T < d).
  { apply Rmult_lt_reg_r with (/ sqrt T); [apply Rinv_0_lt_compat, HsT |].
    replace (sigma * sqrt T * / sqrt T) with sigma by (field; lra).
    exact Hsd. }
  destruct (Hsmall _ Ha Had) as [L U].
  set (g := bs_kernel (sigma * sqrt T) x) in *.
  assert (HU : Kd * (g - Rmax (exp x - 1) 0) < eps).
  { replace eps with (Kd * (eps / Kd)) by (field; lra).
    apply Rmult_lt_compat_l; assumption. }
  assert (HL : 0 < Kd * (g - Rmax (exp x - 1) 0)).
  { apply Rmult_lt_0_compat; assumption. }
  assert (Hmax : Kd * Rmax (exp x - 1) 0 = Rmax (S - Kd) 0).
  { assert (E2 : S - Kd = Kd * (exp x - 1)) by lra.
    unfold Rmax.
    destruct (Rle_dec (exp x - 1) 0); destruct (Rle_dec (S - Kd) 0); nra. }
  assert (Hmax2 : Rmax (Kd - S) 0 = Rmax (S - Kd) 0 - S + Kd).
  { unfold Rmax.
    destruct (Rle_dec (Kd - S) 0); destruct (Rle_dec (S - Kd) 0); lra. }
  rewrite Hmax2.
  split; split; nra.
Qed.

Lemma zero_volatility_limit_witness :
  exists delta : R,
    0 < delta /\
    forall (sigma : R) (w : World), 0 < sigma -> sigma < delta ->
      exists c p : R,
        calculate_call_option_price 100 90 1 0.05 sigma w = (Ok c, w)
        /\ calculate_put_option_price 100 90 1 0.05 sigma w = (Ok p, w)
        /\ 0 < c - Rmax (100 - 90 * exp (- (0.05 * 1))) 0 < 1
        /\ 0 < p - Rmax (90 * exp (- (0.05 * 1)) - 100) 0 < 1.
Proof.
  apply (zero_volatility_limit 100 90 1 0.05 1); lra.
Defined.

(** ** Deep in the money *)

(** X11: in exact real arithmetic, for a large enough spot the put is almost
    worthless and the call is
    almost the spot minus the discounted strike. *)
Theorem large_spot_limit (K T r sigma eps : R) :
  0 < K -> 0 < T -> 0 < sigma -> 0 < eps ->
  exists S0 : R,
    0 < S0 /\
    forall (S : R) (w : World), S0 <= S ->
      exists c p : R,
        calculate_call_option_price S K T r sigma w = (Ok c, w)
        /\ calculate_put_option_price S K T r sigma w = (Ok p, w)
        /\ 0 < p < eps
        /\ 0 < c - (S - K * exp (- (r * T))) < eps.
Proof.
  intros HK HT Hs Heps.
  pose proof (Kd_pos K T r HK) as HKd.
  pose proof (a_pos T sigma HT Hs) as Ha.
  set (Kd := K * exp (- (r * T))) in *.
  set (a := sigma * sqrt T) in *.
  assert (Heps' : 0 < eps / Kd) by (apply Rdiv_lt_0_compat; assumption).
  destruct (norm_cdf_vanishes (eps / Kd) Heps') as [y0 Hy0].
  (* the put is at most Kd * Phi (y / a + a / 2), y = ln (Kd / S) *)
  pose (y1 := a * (y0 - a / 2)).
  exists (Kd * exp (- y1)).
  split; [apply Rmult_lt_0_compat; [exact HKd | apply exp_pos] |].
  intros S w HSbig.
  assert (HS : 0 < S).
  { eapply Rlt_le_trans; [| exact HSbig].
    apply Rmult_lt_0_compat; [exact HKd | apply exp_pos]. }
  destruct (valid_guards S K T sigma HS HK HT Hs) as (G1 & G2 & G3 & G4).
  exists (Spec.call S K T r sigma), (Spec.put S K T r sigma).
  split; [apply call_price_ok; assumption |].
  split; [apply put_price_ok; assumption |].
  pose proof (spec_parity S K T r sigma) as Hpar. fold Kd in Hpar.
  assert (Hp : 0 < Spec.put S K T r sigma < eps).
  { rewrite (spec_put_normalised S K T r sigma HS HK HT Hs).
    fold Kd. fold a.
    rewrite neg_log_moneyness by assumption.
    pose proof (exp_y S Kd HS HKd) as Ey.
    set (y := ln (Kd / S)) in *.
    assert (Hy : y <= y1).
    { assert (Hexp : exp y <= exp y1).
      { assert (E1 : exp y = Kd / S).
        { unfold y. apply exp_ln. apply Rdiv_lt_0_compat; assumption. }
        rewrite E1.
        apply Rmult_le_reg_r with S; [exact HS |].
        replace (Kd / S * S) with Kd by (field; lra).
        apply Rle_trans with (exp y1 * (Kd * exp (- y1))).
        - right. rewrite <- Rmult_assoc, (Rmult_comm (exp y1)), Rmult_assoc.
          rewrite <- exp_plus, Rplus_opp_r, exp_0. ring.
        - apply Rmult_le_compat_l; [left; apply exp_pos | exact HSbig]. }
      destruct (Rle_dec y y1) as [H | H]; [exact H |].
      exfalso. assert (Hlt : y1 < y) by lra.
      apply exp_increasing in Hlt. lra. }
    split; [apply Rmult_lt_0_compat; [exact HS | apply bs_kernel_pos, Ha] |].
    unfold bs_kernel.
    assert (Hd1 : y / a + a / 2 <= y0).
    { assert (H2 : y / a <= y0 - a / 2).
      { apply Rmult_le_reg_r with a; [exact Ha |].
        replace (y / a * a) with y by (field; lra).
        unfold y1 in Hy. lra. }
      lra. }
    pose proof (Hy0 _ Hd1) as Hsmall.
    pose proof (norm_cdf_strict_bounds (y / a - a / 2)) as [H2 _].
    pose proof (norm_cdf_strict_bounds (y / a + a / 2)) as [H1 _].
    replace (S * (exp y * norm_cdf (y / a + a / 2) - norm_cdf (y / a - a / 2)))
      with (S * exp y * norm_cdf (y / a + a / 2)
            - S * norm_cdf (y / a - a / 2)) by ring.
    rewrite Ey.
    assert (H3 : Kd * norm_cdf (y / a + a / 2) < Kd * (eps / Kd)).
    { apply Rmult_lt_compat_l; assumption. }
    replace (Kd * (eps / Kd)) with eps in H3 by (field; lra).
    assert (0 < S * norm_cdf (y / a - a / 2))
      by (apply Rmult_lt_0_compat; assumption).
    lra. }
  split; [exact Hp |]. lra.
Qed.

Lemma large_spot_limit_witness :
  exists S0 : R,
    0 < S0 /\
    forall (S : R) (w : World), S0 <= S ->
      exists c p : R,
        calculate_call_option_price S 100 1 0.05 0.2 w = (Ok c, w)
        /\ calculate_put_option_price S 100 1 0.05 0.2 w = (Ok p, w)
        /\ 0 < p < 1
        /\ 0 < c - (S - 100 * exp (- (0.05 * 1))) < 1.
Proof.
  apply (large_spot_limit 100 1 0.05 0.2 1); lra.
Defined.

(** ** The console program *)

(** The entries of [stdout] are the texts written, one per call of
    [print] or [input], oldest first; the line end that [print] adds is
    left implicit. *)

Definition newline : string := String (Ascii.ascii_of_nat 10) EmptyString.

Definition welcome : string :=
  String.append "Welcome to the Black-Scholes Option Pricing Calculator!"
                newline.

(** The five prompts, in the order they are shown. *)
Definition prompts : list string :=
  [ "Enter the current stock price (S0): ";
    "Enter the strike price (K): ";
    "Enter the time to maturity in years (T): ";
    "Enter the risk-free interest rate (r) in decimal (e.g., 0.05 for 5%): ";
    "Enter the volatility (σ) in decimal (e.g., 0.2 for 20%): " ]%string.

Definition rule : string := "===============================".

Section Console.

(** [float(s)] on a string: the number it denotes, or nothing when
    Python raises ValueError.  The built-in is not part of the script. *)
Variable py_float : string -> option R.

Definition float_of (s : string) : Py R :=
  match py_float s with
  | Some x => ret x
  | None => raise ValueError
  end.

(** [float(input(prompt))]. *)
Definition float_input (prompt : string) : Py R :=
  s <- py_input prompt ;;
  float_of s.

Definition get_user_inputs : Py (R * R * R * R * R) :=
  u <- py_print welcome ;;
  stock_price <- float_input "Enter the current stock price (S0): " ;;
  strike_price <- float_input "Enter the strike price (K): " ;;
  time_to_maturity <-
    float_input "Enter the time to maturity in years (T): " ;;
  risk_free_rate <-
    float_input
      "Enter the risk-free interest rate (r) in decimal (e.g., 0.05 for 5%): " ;;
  volatility <-
    float_input "Enter the volatility (σ) in decimal (e.g., 0.2 for 20%): " ;;
  ret (stock_price, strike_price, time_to_maturity, risk_free_rate,
       volatility).

(** One prompt answered by a line that denotes a number. *)
Lemma float_input_ok (prompt line : string) (rest out : list string) (x : R) :
  py_float line = Some x ->
  float_input prompt (mkWorld (line :: rest) out)
  = (Ok x, mkWorld rest (out ++ [prompt])).
Proof.
  intros H. unfold float_input, bind, py_input, float_of. cbn.
  rewrite H. reflexivity.
Qed.

Lemma float_input_bad (prompt line : string) (rest out : list string) :
  py_float line = None ->
  float_input prompt (mkWorld (line :: rest) out)
  = (Raise ValueError, mkWorld rest (out ++ [prompt])).
Proof.
  intros H. unfold float_input, bind, py_input, float_of. cbn.
  rewrite H. reflexivity.
Qed.

Lemma float_input_eof (prompt : string) (out : list string) :
  float_input prompt (mkWorld [] out)
  = (Raise EOFError, mkWorld [] (out ++ [prompt])).
Proof. reflexivity. Qed.

End Console.

(** ** Reading the five parameters *)

Section ConsoleRuns.

Variable py_float : string -> option R.

(** A line is a number when [float] accepts it. *)
Definition is_number (s : string) : Prop := py_float s <> None.

Lemma is_number_value (s : string) :
  is_number s -> exists x : R, py_float s = Some x.
Proof.
  unfold is_number. destruct (py_float s) as [x |].
  - intros _. exists x. reflexivity.
  - intros H. exfalso. apply H. reflexivity.
Qed.

Ltac run_inputs :=
  unfold get_user_inputs; unfold bind at 1; unfold py_print; cbn [stdin stdout];
  repeat
    (unfold bind at 1;
     first
       [ erewrite float_input_ok by eassumption
       | erewrite float_input_bad by eassumption
       | rewrite float_input_eof ]);
  unfold ret; repeat rewrite <- app_assoc; cbn [app]; try reflexivity.

Lemma inputs_ok_run (l1 l2 l3 l4 l5 : string) (rest out : list string)
      (v1 v2 v3 v4 v5 : R) :
  py_float l1 = Some v1 -> py_float l2 = Some v2 -> py_float l3 = Some v3 ->
  py_float l4 = Some v4 -> py_float l5 = Some v5 ->
  get_user_inputs py_float (mkWorld (l1 :: l2 :: l3 :: l4 :: l5 :: rest) out)
  = (Ok (v1, v2, v3, v4, v5), mkWorld rest (out ++ welcome :: prompts)).
Proof.
  intros H1 H2 H3 H4 H5. run_inputs.
Qed.

Lemma inputs_bad_run (good : list string) (bad : string)
      (rest out : list string) :
  (List.length good < 5)%nat -> Forall is_number good -> py_float bad = None ->
  get_user_inputs py_float (mkWorld (good ++ bad :: rest) out)
  = (Raise ValueError,
     mkWorld rest (out ++ welcome :: firstn (S (List.length good)) prompts)).
Proof.
  intros Hlen Hgood Hbad.
  destruct good as [| g1 [| g2 [| g3 [| g4 [| g5 good]]]]];
    cbn [List.length] in Hlen; try (exfalso; apply PeanoNat.Nat.lt_nge in Hlen;
                                 apply Hlen; repeat apply le_n_S;
                                 apply PeanoNat.Nat.le_0_l);
    repeat match goal with
           | H : Forall _ (_ :: _) |- _ =>
               let Hh := fresh "Hh" in
               let Ht := fresh "Ht" in
               let x := fresh "x" in
               let Hx := fresh "Hx" in
               pose proof (Forall_inv H) as Hh;
               pose proof (Forall_inv_tail H) as Ht;
               clear H;
               destruct (is_number_value _ Hh) as [x Hx]
           end;
    cbn [app List.length firstn prompts]; run_inputs.
Qed.

Lemma inputs_eof_run (good out : list string) :
  (List.length good < 5)%nat -> Forall is_number good ->
  get_user_inputs py_float (mkWorld good out)
  = (Raise EOFError,
     mkWorld [] (out ++ welcome :: firstn (S (List.length good)) prompts)).
Proof.
  intros Hlen Hgood.
  destruct good as [| g1 [| g2 [| g3 [| g4 [| g5 good]]]]];
    cbn [List.length] in Hlen; try (exfalso; apply PeanoNat.Nat.lt_nge in Hlen;
                                 apply Hlen; repeat apply le_n_S;
                                 apply PeanoNat.Nat.le_0_l);
    repeat match goal with
           | H : Forall _ (_ :: _) |- _ =>
               let Hh := fresh "Hh" in
               let Ht := fresh "Ht" in
               let x := fresh "x" in
               let Hx := fresh "Hx" in
               pose proof (Forall_inv H) as Hh;
               pose proof (Forall_inv_tail H) as Ht;
               clear H;
               destruct (is_number_value _ Hh) as [x Hx]
           end;
    cbn [app List.length firstn prompts]; run_inputs.
Qed.

End ConsoleRuns.

(** A table standing for [float] on the few lines the examples use. *)
Definition demo_float (s : string) : option R :=
  if String.eqb s "100" then Some 100
  else if String.eqb s "1" then Some 1
  else if String.eqb s "0.05" then Some 0.05
  else if String.eqb s "0.2" then Some 0.2
  else if String.eqb s "0" then Some 0
  else None.

(** ** Properties of the console program *)

(** X13: five lines that denote numbers are read in the order spot, strike,
    maturity, rate, volatility; exactly these five lines are consumed,
    and the welcome line and the five prompts are written. *)
Theorem get_user_inputs_reads_five
        (py_float : string -> option R) (w : World)
        (l1 l2 l3 l4 l5 : string) (rest : list string)
        (v1 v2 v3 v4 v5 : R) :
  stdin w = l1 :: l2 :: l3 :: l4 :: l5 :: rest ->
  py_float l1 = Some v1 -> py_float l2 = Some v2 -> py_float l3 = Some v3 ->
  py_float l4 = Some v4 -> py_float l5 = Some v5 ->
  get_user_inputs py_float w
  = (Ok (v1, v2, v3, v4, v5), mkWorld rest (stdout w ++ welcome :: prompts)).
Proof.
  destruct w as [inp out]. cbn [stdin stdout]. intros ->.
  apply inputs_ok_run.
Qed.

Lemma get_user_inputs_reads_five_witness :
  get_user_inputs demo_float
    (mkWorld ["100"; "100"; "1"; "0.05"; "0.2"; "more"]%string [])
  = (Ok (100, 100, 1, 0.05, 0.2),
     mkWorld ["more"%string] ([] ++ welcome :: prompts)).
Proof.
  apply (get_user_inputs_reads_five demo_float
           (mkWorld ["100"; "100"; "1"; "0.05"; "0.2"; "more"]%string [])
           "100" "100" "1" "0.05" "0.2" ["more"%string]);
    reflexivity.
Defined.

(** X14: the first line that is not a number stops the reading with a
    ValueError: the lines after it are left unread and the prompts after
    it are not shown. *)
Theorem get_user_inputs_stops_at_bad_line
        (py_float : string -> option R) (w : World)
        (good : list string) (bad : string) (rest : list string) :
  stdin w = good ++ bad :: rest ->
  (List.length good < 5)%nat ->
  Forall (is_number py_float) good ->
  py_float bad = None ->
  get_user_inputs py_float w
  = (Raise ValueError,
     mkWorld rest
             (stdout w ++ welcome :: firstn (S (List.length good)) prompts)).
Proof.
  destruct w as [inp out]. cbn [stdin stdout]. intros ->.
  apply inputs_bad_run.
Qed.

Lemma get_user_inputs_stops_at_bad_line_witness :
  get_user_inputs demo_float
    (mkWorld ["100"; "abc"; "1"; "0.05"; "0.2"]%string [])
  = (Raise ValueError,
     mkWorld ["1"; "0.05"; "0.2"]%string
             ([] ++ welcome
                 :: firstn (S (List.length ["100"%string])) prompts)).
Proof.
  apply (get_user_inputs_stops_at_bad_line demo_float
           (mkWorld ["100"; "abc"; "1"; "0.05"; "0.2"]%string [])
           ["100"%string] "abc" ["1"; "0.05"; "0.2"]%string).
  - reflexivity.
  - cbn. repeat constructor.
  - constructor; [unfold is_number; cbn; discriminate | constructor].
  - reflexivity.
Defined.

(** X15: when the input ends before the fifth number the reading stops with an
    EOFError, after the prompt that found no line. *)
Theorem get_user_inputs_end_of_input
        (py_float : string -> option R) (w : World) :
  (List.length (stdin w) < 5)%nat ->
  Forall (is_number py_float) (stdin w) ->
  get_user_inputs py_float w
  = (Raise EOFError,
     mkWorld []
             (stdout w
              ++ welcome :: firstn (S (List.length (stdin w))) prompts)).
Proof.
  destruct w as [inp out]. cbn [stdin stdout].
  apply inputs_eof_run.
Qed.

Lemma get_user_inputs_end_of_input_witness :
  get_user_inputs demo_float (mkWorld ["100"; "100"]%string [])
  = (Raise EOFError,
     mkWorld []
             ([] ++ welcome
                 :: firstn (S (List.length ["100"; "100"]%string)) prompts)).
Proof.
  apply (get_user_inputs_end_of_input demo_float
           (mkWorld ["100"; "100"]%string [])).
  - cbn. repeat constructor.
  - repeat constructor; unfold is_number; cbn; discriminate.
Defined.

(** ** Sensitivity to the maturity *)

(** The call in terms of y = ln (K exp (- r T) / S). *)
Lemma spec_call_by_strike (S K T r sigma : R) :
  0 < S -> 0 < K -> 0 < T -> 0 < sigma ->
  Spec.call S K T r sigma
  = S * (bs_kernel (sigma * sqrt T) (ln (K * exp (- (r * T)) / S))
         - exp (ln (K * exp (- (r * T)) / S)))
    + S.
Proof.
  intros HS HK HT Hs.
  pose proof (spec_parity S K T r sigma) as Hpar.
  pose proof (Kd_pos K T r HK) as HKd.
  rewrite (spec_put_normalised S K T r sigma HS HK HT Hs) in Hpar.
  rewrite neg_log_moneyness in Hpar by assumption.
  pose proof (exp_y S _ HS HKd) as Ey.
  set (Kd := K * exp (- (r * T))) in *.
  set (y := ln (Kd / S)) in *.
  nra.
Qed.

(** X12: in exact real arithmetic, on valid inputs with a rate that is not
    negative, a longer maturity makes the call dearer. *)
Theorem maturity_sensitivity (S K T1 T2 r sigma : R) (w : World) :
  0 < S -> 0 < K -> 0 < T1 -> T1 < T2 -> 0 <= r -> 0 < sigma ->
  exists c1 c2 : R,
    calculate_call_option_price S K T1 r sigma w = (Ok c1, w)
    /\ calculate_call_option_price S K T2 r sigma w = (Ok c2, w)
    /\ c1 < c2.
Proof.
  intros HS HK HT1 HT12 Hr Hs.
  assert (HT2 : 0 < T2) by lra.
  destruct (valid_guards S K T1 sigma HS HK HT1 Hs) as (G1 & G2 & G3 & G4).
  destruct (valid_guards S K T2 sigma HS HK HT2 Hs) as (_ & _ & G3' & G4').
  exists (Spec.call S K T1 r sigma), (Spec.call S K T2 r sigma).
  split; [apply call_price_ok; assumption |].
  split; [apply call_price_ok; assumption |].
  rewrite (spec_call_by_strike S K T1 r sigma HS HK HT1 Hs).
  rewrite (spec_call_by_strike S K T2 r sigma HS HK HT2 Hs).
  pose proof (Kd_pos K T1 r HK) as HKd1.
  pose proof (Kd_pos K T2 r HK) as HKd2.
  pose proof (a_pos T1 sigma HT1 Hs) as Ha1.
  assert (Ha12 : sigma * sqrt T1 < sigma * sqrt T2).
  { apply Rmult_lt_compat_l; [exact Hs |].
    apply sqrt_lt_1_alt. lra. }
  assert (HKd : K * exp (- (r * T2)) <= K * exp (- (r * T1))).
  { apply Rmult_le_compat_l; [lra |].
    destruct (Req_dec_T (- (r * T2)) (- (r * T1))) as [-> | Hne]; [lra |].
    left. apply exp_increasing. nra. }
  set (a1 := sigma * sqrt T1) in *.
  set (a2 := sigma * sqrt T2) in *.
  set (Kd1 := K * exp (- (r * T1))) in *.
  set (Kd2 := K * exp (- (r * T2))) in *.
  assert (Hy : ln (Kd2 / S) <= ln (Kd1 / S)).
  { apply ln_nondecreasing.
    - apply Rdiv_lt_0_compat; assumption.
    - apply Rmult_le_compat_r; [left; apply Rinv_0_lt_compat, HS | exact HKd]. }
  set (y1 := ln (Kd1 / S)) in *.
  set (y2 := ln (Kd2 / S)) in *.
  assert (Ha20 : a2 <> 0) by lra.
  pose proof (bs_kernel_minus_exp_decr a2 y2 y1 Ha20 Hy) as Hdec.
  pose proof (bs_kernel_vol_strict_incr y1 a1 a2 Ha1 Ha12) as Hvol.
  nra.
Qed.

Lemma maturity_sensitivity_witness :
  exists c1 c2 : R,
    calculate_call_option_price 100 100 1 0.05 0.2 w0 = (Ok c1, w0)
    /\ calculate_call_option_price 100 100 2 0.05 0.2 w0 = (Ok c2, w0)
    /\ c1 < c2.
Proof.
  apply (maturity_sensitivity 100 100 1 2 0.05 0.2 w0); lra.
Defined.

(** * Machine arithmetic

    The development above evaluates the formulas over the real numbers.
    The script itself computes with binary64 floats: quotients and
    products round, underflow and overflow, and the wrappers of the math
    module turn some results into exceptions.  This part embeds the same
    functions over the primitive binary64 floats, whose division,
    multiplication, addition, subtraction and square root are the
    correctly rounded ones of IEEE 754, as Python's are.

    The logarithm, the exponential and the power function of the C
    library and the distribution function of scipy are not correctly
    rounded and differ between platforms: they are parameters, and every
    statement below holds for all of them.

    The arguments of the pricing functions are floats, as the script
    passes them.  The value of [norm.cdf] is a numpy scalar: the products
    and differences it enters round as Python's do and raise nothing
    (numpy warns of an overflow or an invalid operation; it does not
    raise). *)

From Stdlib Require Floats.

Module Machine.

Import Floats.
Local Open Scope bool_scope.
Local Open Scope float_scope.
#[local] Set Warnings "-inexact-float".

(** The library functions the script reaches: [log], [exp] and [pow] of
    the C library, and [scipy.stats.norm.cdf] on a scalar. *)
Record Libm : Type := mkLibm {
  c_log : float -> float;
  c_exp : float -> float;
  c_pow : float -> float -> float;
  norm_cdf : float -> float
}.

(** [x / y] on floats (float_div): a zero divisor, of either sign,
    raises; every other quotient, NaN and the infinities included, is
    returned. *)
Definition py_div (x y : float) : Py float :=
  if y =? 0 then raise ZeroDivisionError else ret (x / y).

(** [math_1] of the math module: the wrapper around a function of the C
    library.  A NaN result from an argument that is not NaN is a domain
    error; an infinite result from a finite argument is an overflow, or a
    domain error when the function cannot overflow.  (The C library is
    taken to leave errno clear when the result is finite.) *)
Definition math_1 (func : float -> float) (can_overflow : bool) (x : float)
  : Py float :=
  let r := func x in
  if is_nan r && negb (is_nan x) then raise ValueError
  else if is_infinity r && is_finite x then
    (if can_overflow then raise OverflowError else raise ValueError)
  else ret r.

(** [m_log] of the math module: the logarithm with its special cases. *)
Definition m_log (L : Libm) (x : float) : float :=
  if is_finite x then
    if 0 <? x then c_log L x
    else if x =? 0 then neg_infinity
    else nan
  else if is_nan x then x
  else if 0 <? x then x
  else nan.

Definition math_log (L : Libm) (x : float) : Py float :=
  math_1 (m_log L) false x.

Definition math_sqrt (x : float) : Py float :=
  math_1 PrimFloat.sqrt false x.

Definition math_exp (L : Libm) (x : float) : Py float :=
  math_1 (c_exp L) true x.

(** [v ** 2] on a float (float_pow with the exponent 2): the special
    cases are settled without the C library; otherwise an infinite result
    of [pow] is an OverflowError.  (The C library is taken to report a
    range error only with an infinite result or with an underflow to
    zero, which float_pow ignores.) *)
Definition float_pow_2 (L : Libm) (v : float) : Py float :=
  if is_nan v then ret v
  else if is_infinity v then ret infinity
  else if v =? 0 then ret 0
  else
    let iv := abs v in
    if iv =? 1 then ret 1
    else
      let ix := c_pow L iv 2 in
      if is_infinity ix then raise OverflowError else ret ix.

(** Lines 17-19. *)
Definition call_d1_d2 (L : Libm)
  (stock_price strike_price time_to_maturity risk_free_rate volatility
     : float)
  : Py (float * float) :=
  q <- py_div stock_price strike_price ;;
  l <- math_log L q ;;
  p <- float_pow_2 L volatility ;;
  s <- math_sqrt time_to_maturity ;;
  d1 <- py_div (l + (risk_free_rate + 0.5 * p) * time_to_maturity)
               (volatility * s) ;;
  s' <- math_sqrt time_to_maturity ;;
  ret (d1, d1 - volatility * s').

(** Lines 17-24. *)
Definition calculate_call_option_price (L : Libm)
  (stock_price strike_price time_to_maturity risk_free_rate volatility
     : float)
  : Py float :=
  d <- call_d1_d2 L stock_price strike_price time_to_maturity
                  risk_free_rate volatility ;;
  let d1 := fst d in
  let d2 := snd d in
  let left := stock_price * norm_cdf L d1 in
  e <- math_exp L (- risk_free_rate * time_to_maturity) ;;
  let call_price := left - strike_price * e * norm_cdf L d2 in
  ret call_price.

(** Lines 39-41. *)
Definition put_d1_d2 (L : Libm)
  (stock_price strike_price time_to_maturity risk_free_rate volatility
     : float)
  : Py (float * float) :=
  q <- py_div stock_price strike_price ;;
  l <- math_log L q ;;
  p <- float_pow_2 L volatility ;;
  s <- math_sqrt time_to_maturity ;;
  d1 <- py_div (l + (risk_free_rate + 0.5 * p) * time_to_maturity)
               (volatility * s) ;;
  s' <- math_sqrt time_to_maturity ;;
  ret (d1, d1 - volatility * s').

(** Lines 39-47. *)
Definition calculate_put_option_price (L : Libm)
  (stock_price strike_price time_to_maturity risk_free_rate volatility
     : float)
  : Py float :=
  d <- put_d1_d2 L stock_price strike_price time_to_maturity
                 risk_free_rate volatility ;;
  let d1 := fst d in
  let d2 := snd d in
  e <- math_exp L (- risk_free_rate * time_to_maturity) ;;
  let put_price :=
    strike_price * e * norm_cdf L (- d2)
    - stock_price * norm_cdf L (- d1) in
  ret put_price.

(** A float is a valid price, maturity or volatility when it is finite
    and positive. *)
Definition is_positive (x : float) : bool := is_finite x && (0 <? x).

(** ** The tests of the wrappers, by the class of the float *)

Lemma SFcompare_finite_refl (s : bool) (m : positive) (e : Z) :
  SFcompare (S754_finite s m e) (S754_finite s m e) = Some Eq.
Proof.
  destruct s; cbn;
    rewrite BinInt.Z.compare_refl, BinPos.Pos.compare_refl; reflexivity.
Qed.

Lemma classify_cases (x : float) :
  match Prim2SF x with
  | S754_nan =>
      is_nan x = true /\ is_infinity x = false /\ (0 <? x) = false
      /\ (x =? 0) = false /\ (x <=? 0) = false /\ (x <? 0) = false
  | S754_infinity s =>
      is_nan x = false /\ is_infinity x = true /\ (0 <? x) = negb s
      /\ (x =? 0) = false /\ (x <=? 0) = s /\ (x <? 0) = s
  | S754_zero s =>
      is_nan x = false /\ is_infinity x = false /\ (0 <? x) = false
      /\ (x =? 0) = true /\ (x <=? 0) = true /\ (x <? 0) = false
  | S754_finite s m e =>
      is_nan x = false /\ is_infinity x = false /\ (0 <? x) = negb s
      /\ (x =? 0) = false /\ (x <=? 0) = s /\ (x <? 0) = s
  end.
Proof.
  unfold is_nan, is_infinity.
  rewrite !eqb_spec, !ltb_spec, leb_spec, abs_spec.
  destruct (Prim2SF x) as [s | s | | s m e].
  - destruct s; repeat split; reflexivity.
  - destruct s; repeat split; reflexivity.
  - repeat split; reflexivity.
  - unfold SFeqb at 1. rewrite SFcompare_finite_refl.
    destruct s; repeat split; reflexivity.
Qed.

(** The class of a float, read back from the tests. *)
Ltac classify x :=
  let H := fresh "Hcls" in
  pose proof (classify_cases x) as H;
  destruct (Prim2SF x) as [sgn | sgn | | sgn mant expo] eqn:Erep;
  destruct H as (Hnan & Hinf & Hpos & Hzero & Hle0 & Hlt0).

Lemma eqb_zero_rep (x : float) :
  (x =? 0) = true <-> exists s, Prim2SF x = S754_zero s.
Proof.
  split.
  - intros H. classify x; try congruence. eexists. reflexivity.
  - intros [s Hs]. pose proof (classify_cases x) as H. rewrite Hs in H.
    apply H.
Qed.

Lemma finite_parts (x : float) :
  is_finite x = true -> is_nan x = false /\ is_infinity x = false.
Proof.
  unfold is_finite. destruct (is_nan x), (is_infinity x);
    intros H; try discriminate H; split; reflexivity.
Qed.

Lemma infinity_not_nan (x : float) :
  is_infinity x = true -> is_nan x = false.
Proof.
  intros H. classify x; congruence.
Qed.

Lemma math_log_zero (L : Libm) (x : float) (w : World) :
  (x =? 0) = true -> math_log L x w = (Raise ValueError, w).
Proof.
  intros Hq.
  pose proof (classify_cases x) as H.
  destruct (proj1 (eqb_zero_rep x) Hq) as [s Hs]. rewrite Hs in H.
  destruct H as (Hn & Hi & Hl & _).
  unfold math_log, math_1, m_log, is_finite.
  rewrite Hn, Hi, Hl, Hq. reflexivity.
Qed.

(** An underflowing quotient stops both functions at the logarithm. *)
Lemma quotient_underflow_raises (L : Libm) (S K T r sigma : float)
      (w : World) :
  (K =? 0) = false -> (S / K =? 0) = true ->
  calculate_call_option_price L S K T r sigma w = (Raise ValueError, w)
  /\ calculate_put_option_price L S K T r sigma w = (Raise ValueError, w).
Proof.
  intros HK Hq.
  pose proof (math_log_zero L (S / K) w Hq) as Hlog.
  unfold calculate_call_option_price, calculate_put_option_price,
    call_d1_d2, put_d1_d2, py_div.
  rewrite HK.
  split; unfold bind, ret; rewrite Hlog; reflexivity.
Qed.

(** ** Outcomes of the arithmetic *)

(** The exceptions float arithmetic can raise. *)
Definition arith_exn (e : exn) : Prop :=
  e = ZeroDivisionError \/ e = ValueError \/ e = OverflowError.

(** A computation that leaves the console alone and fails, if it fails,
    with an exception of the arithmetic. *)
Definition arith_call {A : Type} (m : Py A) : Prop :=
  exists o : outcome A,
    (forall w : World, m w = (o, w))
    /\ (forall e : exn, o = Raise e -> arith_exn e).

Lemma arith_ret {A : Type} (a : A) : arith_call (ret a).
Proof.
  exists (Ok a). split; [reflexivity | intros e H; discriminate H].
Qed.

Lemma arith_raise {A : Type} (e : exn) :
  arith_exn e -> arith_call (@raise A e).
Proof.
  intros He. exists (Raise e). split; [reflexivity |].
  intros e' H. inversion H. subst. exact He.
Qed.

Lemma arith_bind {A B : Type} (m : Py A) (k : A -> Py B) :
  arith_call m -> (forall a, arith_call (k a)) -> arith_call (bind m k).
Proof.
  intros (o & Ho & He) Hk.
  destruct o as [a | e].
  - destruct (Hk a) as (o' & Ho' & He'). exists o'. split; [| exact He'].
    intros w. unfold bind. rewrite Ho. apply Ho'.
  - exists (Raise e). split.
    + intros w. unfold bind. rewrite Ho. reflexivity.
    + intros e' H. inversion H. subst. apply He. reflexivity.
Qed.

Lemma arith_py_div (x y : float) : arith_call (py_div x y).
Proof.
  unfold py_div. destruct (y =? 0).
  - apply arith_raise. left. reflexivity.
  - apply arith_ret.
Qed.

Lemma arith_math_1 (func : float -> float) (b : bool) (x : float) :
  arith_call (math_1 func b x).
Proof.
  unfold math_1.
  destruct (is_nan (func x) && negb (is_nan x)).
  - apply arith_raise. right. left. reflexivity.
  - destruct (is_infinity (func x) && is_finite x).
    + destruct b; apply arith_raise.
      * right. right. reflexivity.
      * right. left. reflexivity.
    + apply arith_ret.
Qed.

Lemma arith_float_pow_2 (L : Libm) (v : float) :
  arith_call (float_pow_2 L v).
Proof.
  unfold float_pow_2.
  destruct (is_nan v); [apply arith_ret |].
  destruct (is_infinity v); [apply arith_ret |].
  destruct (v =? 0); [apply arith_ret |].
  destruct (abs v =? 1); [apply arith_ret |].
  destruct (is_infinity (c_pow L (abs v) 2)).
  - apply arith_raise. right. right. reflexivity.
  - apply arith_ret.
Qed.

Create HintDb machine.
#[local] Hint Resolve arith_ret arith_py_div arith_math_1 arith_float_pow_2
  : machine.

Ltac prove_arith :=
  repeat (apply arith_bind; [auto with machine | intros ?]);
  auto with machine.

Lemma arith_math_log (L : Libm) (x : float) : arith_call (math_log L x).
Proof. apply arith_math_1. Qed.

Lemma arith_math_sqrt (x : float) : arith_call (math_sqrt x).
Proof. apply arith_math_1. Qed.

Lemma arith_math_exp (L : Libm) (x : float) : arith_call (math_exp L x).
Proof. apply arith_math_1. Qed.

#[local] Hint Resolve arith_math_log arith_math_sqrt arith_math_exp
  : machine.

Lemma arith_call_price (L : Libm) (S K T r sigma : float) :
  arith_call (calculate_call_option_price L S K T r sigma).
Proof.
  unfold calculate_call_option_price, call_d1_d2. prove_arith.
Qed.

Lemma arith_put_price (L : Libm) (S K T r sigma : float) :
  arith_call (calculate_put_option_price L S K T r sigma).
Proof.
  unfold calculate_put_option_price, put_d1_d2. prove_arith.
Qed.

(** The two blocks of intermediate values are one computation. *)
Lemma put_d1_d2_eq (L : Libm) (S K T r sigma : float) :
  put_d1_d2 L S K T r sigma = call_d1_d2 L S K T r sigma.
Proof. reflexivity. Qed.

(** A failure of the intermediate values is the failure of the price. *)
Lemma block_failure (L : Libm) (S K T r sigma : float) (e : exn) :
  (forall w, call_d1_d2 L S K T r sigma w = (Raise e, w)) ->
  forall w,
    calculate_call_option_price L S K T r sigma w = (Raise e, w)
    /\ calculate_put_option_price L S K T r sigma w = (Raise e, w).
Proof.
  intros H w.
  unfold calculate_call_option_price, calculate_put_option_price.
  change (put_d1_d2 L S K T r sigma) with (call_d1_d2 L S K T r sigma).
  unfold bind. rewrite H. split; reflexivity.
Qed.

(** ** Failures that no library function can prevent *)

Lemma zero_strike (L : Libm) (S K T r sigma : float) :
  (K =? 0) = true ->
  forall w, call_d1_d2 L S K T r sigma w = (Raise ZeroDivisionError, w).
Proof.
  intros HK w. unfold call_d1_d2, bind, py_div. rewrite HK. reflexivity.
Qed.

(** What a quotient that is zero, negative or minus infinity looks like to
    the logarithm. *)
Lemma math_log_nonpositive (L : Libm) (x : float) (w : World) :
  (x <=? 0) = true -> math_log L x w = (Raise ValueError, w).
Proof.
  intros Hle.
  unfold math_log, math_1, m_log, is_finite.
  classify x; rewrite Hle in Hle0; try discriminate Hle0;
    try subst sgn; rewrite Hnan, Hinf, Hpos, ?Hzero; reflexivity.
Qed.

Lemma nonpositive_quotient (L : Libm) (S K T r sigma : float) :
  (K =? 0) = false -> (S / K <=? 0) = true ->
  forall w, call_d1_d2 L S K T r sigma w = (Raise ValueError, w).
Proof.
  intros HK Hq w.
  unfold call_d1_d2, bind, py_div. rewrite HK. unfold ret.
  rewrite (math_log_nonpositive L (S / K) w Hq). reflexivity.
Qed.

(** ** A zero denominator *)

Lemma rep_zero_eqb (x : float) (s : bool) :
  Prim2SF x = S754_zero s -> (x =? 0) = true.
Proof. intros H. apply eqb_zero_rep. exists s. exact H. Qed.

(** A finite float times a zero is a zero. *)
Lemma finite_times_zero (v s : float) :
  is_finite v = true -> (s =? 0) = true -> (v * s =? 0) = true.
Proof.
  unfold is_finite. intros Hv Hs.
  destruct (proj1 (eqb_zero_rep s) Hs) as [ss Hss].
  classify v; rewrite Hnan, Hinf in Hv; try discriminate Hv.
  - apply (rep_zero_eqb _ (xorb sgn ss)).
    rewrite mul_spec, Erep, Hss. reflexivity.
  - apply (rep_zero_eqb _ (xorb sgn ss)).
    rewrite mul_spec, Erep, Hss. reflexivity.
Qed.

(** A zero times a float that is neither NaN nor infinite is a zero. *)
Lemma zero_times_finite (v s : float) :
  (v =? 0) = true -> is_nan s = false -> is_infinity s = false ->
  (v * s =? 0) = true.
Proof.
  intros Hv Hn Hi.
  destruct (proj1 (eqb_zero_rep v) Hv) as [sv Hsv].
  classify s; try congruence.
  - apply (rep_zero_eqb _ (xorb sv sgn)).
    rewrite mul_spec, Erep, Hsv. reflexivity.
  - apply (rep_zero_eqb _ (xorb sv sgn)).
    rewrite mul_spec, Erep, Hsv. reflexivity.
Qed.

(** The square root of a zero is that zero, and no error. *)
Lemma math_sqrt_zero (T : float) :
  (T =? 0) = true ->
  (PrimFloat.sqrt T =? 0) = true
  /\ forall w, math_sqrt T w = (Ok (PrimFloat.sqrt T), w).
Proof.
  intros HT.
  destruct (proj1 (eqb_zero_rep T) HT) as [sT HsT].
  assert (Hr : Prim2SF (PrimFloat.sqrt T) = S754_zero sT).
  { rewrite sqrt_spec, HsT. reflexivity. }
  split; [apply (rep_zero_eqb _ sT), Hr |].
  intros w. unfold math_sqrt, math_1.
  pose proof (classify_cases (PrimFloat.sqrt T)) as H. rewrite Hr in H.
  destruct H as (Hn & Hi & _). rewrite Hn, Hi. reflexivity.
Qed.

(** The square root of a negative float, minus infinity included, is a
    domain error. *)
Lemma math_sqrt_negative (T : float) (w : World) :
  (T <? 0) = true -> math_sqrt T w = (Raise ValueError, w).
Proof.
  intros HT.
  assert (Hr : Prim2SF (PrimFloat.sqrt T) = S754_nan /\ is_nan T = false).
  { rewrite sqrt_spec.
    classify T; rewrite HT in Hlt0; try discriminate Hlt0;
      destruct sgn; try discriminate Hlt0;
      split; (reflexivity || assumption). }
  destruct Hr as [Hr HnT].
  unfold math_sqrt, math_1.
  pose proof (classify_cases (PrimFloat.sqrt T)) as H. rewrite Hr in H.
  destruct H as (Hn & _). rewrite Hn, HnT. reflexivity.
Qed.

(** Whatever the first three steps do, a tail that always fails makes the
    whole block fail. *)
Lemma d1_d2_tail_fails (L : Libm) (S K T r sigma : float) :
  (forall l p : float,
      exists e : exn,
        arith_exn e /\
        forall w,
          (s <- math_sqrt T ;;
           d1 <- py_div (l + (r + 0.5 * p) * T) (sigma * s) ;;
           s' <- math_sqrt T ;;
           ret (d1, d1 - sigma * s')) w = (Raise e, w)) ->
  exists e : exn,
    arith_exn e /\ forall w, call_d1_d2 L S K T r sigma w = (Raise e, w).
Proof.
  intros Htail. unfold call_d1_d2.
  destruct (arith_py_div S K) as ([q | e1] & H1 & E1).
  2:{ exists e1. split; [apply E1; reflexivity |].
      intros w. unfold bind at 1. rewrite H1. reflexivity. }
  destruct (arith_math_log L q) as ([l | e2] & H2 & E2).
  2:{ exists e2. split; [apply E2; reflexivity |].
      intros w. unfold bind at 1. rewrite H1.
      unfold bind at 1. rewrite H2. reflexivity. }
  destruct (arith_float_pow_2 L sigma) as ([p | e3] & H3 & E3).
  2:{ exists e3. split; [apply E3; reflexivity |].
      intros w. unfold bind at 1. rewrite H1.
      unfold bind at 1. rewrite H2.
      unfold bind at 1. rewrite H3. reflexivity. }
  destruct (Htail l p) as (e & He & Ht).
  exists e. split; [exact He |].
  intros w. unfold bind at 1. rewrite H1.
  unfold bind at 1. rewrite H2.
  unfold bind at 1. rewrite H3.
  apply Ht.
Qed.

Lemma zero_denominator (L : Libm) (S K T r sigma s : float) :
  (forall w, math_sqrt T w = (Ok s, w)) ->
  (sigma * s =? 0) = true ->
  exists e : exn,
    arith_exn e /\ forall w, call_d1_d2 L S K T r sigma w = (Raise e, w).
Proof.
  intros Hs Hden. apply d1_d2_tail_fails. intros l p.
  exists ZeroDivisionError. split; [left; reflexivity |].
  intros w. unfold bind at 1. rewrite Hs.
  unfold bind at 1. unfold py_div. rewrite Hden. reflexivity.
Qed.

Lemma sqrt_domain (L : Libm) (S K T r sigma : float) :
  (forall w, math_sqrt T w = (Raise ValueError, w)) ->
  exists e : exn,
    arith_exn e /\ forall w, call_d1_d2 L S K T r sigma w = (Raise e, w).
Proof.
  intros Hs. apply d1_d2_tail_fails. intros l p.
  exists ValueError. split; [right; left; reflexivity |].
  intros w. unfold bind at 1. rewrite Hs. reflexivity.
Qed.

(** A stand-in for the library functions, for concrete runs: the
    theorems hold for every library. *)
Definition demo_libm : Libm :=
  mkLibm (fun _ => 0) (fun _ => 1) (fun x _ => x * x) (fun _ => 0.5).

(** ** Degenerate inputs in machine arithmetic *)

(** C4, amended: with T = 0 and a finite sigma, or with sigma = 0 and a
    finite T, neither function returns a value, so no NaN and no infinity:
    both raise the same built-in exception, ZeroDivisionError, ValueError
    or OverflowError, raised by the arithmetic itself and not by a check
    of the inputs, and the console is left as it was.  This holds in
    binary64 arithmetic for every C library and every implementation of
    the distribution function. *)
Theorem degenerate_raises (L : Libm) (S K T r sigma : float) (w : World) :
  ((T =? 0) = true /\ is_finite sigma = true)
  \/ ((sigma =? 0) = true /\ is_finite T = true) ->
  exists e : exn,
    (e = ZeroDivisionError \/ e = ValueError \/ e = OverflowError)
    /\ calculate_call_option_price L S K T r sigma w = (Raise e, w)
    /\ calculate_put_option_price L S K T r sigma w = (Raise e, w).
Proof.
  intros Hdeg.
  assert (Hblock : exists e : exn,
             arith_exn e /\
             forall w, call_d1_d2 L S K T r sigma w = (Raise e, w)).
  { destruct Hdeg as [[HT Hs] | [Hs HT]].
    - destruct (math_sqrt_zero T HT) as [Hz Hsqrt].
      apply (zero_denominator L S K T r sigma (PrimFloat.sqrt T) Hsqrt).
      apply finite_times_zero; assumption.
    - destruct (finite_parts T HT) as [HnT HiT].
      destruct (is_nan (PrimFloat.sqrt T)) eqn:Hnr.
      + apply sqrt_domain. intros w'. unfold math_sqrt, math_1.
        rewrite Hnr, HnT. reflexivity.
      + destruct (is_infinity (PrimFloat.sqrt T)) eqn:Hir.
        * apply sqrt_domain. intros w'. unfold math_sqrt, math_1.
          rewrite Hnr, Hir, HT. reflexivity.
        * apply (zero_denominator L S K T r sigma (PrimFloat.sqrt T)).
          -- intros w'. unfold math_sqrt, math_1. rewrite Hnr, Hir.
             reflexivity.
          -- apply zero_times_finite; assumption. }
  destruct Hblock as (e & He & Hraise).
  exists e. split; [exact He |].
  apply block_failure. exact Hraise.
Qed.

Lemma degenerate_raises_witness :
  exists e : exn,
    (e = ZeroDivisionError \/ e = ValueError \/ e = OverflowError)
    /\ calculate_call_option_price demo_libm 100 100 0 0.05 0.2 w0
       = (Raise e, w0)
    /\ calculate_put_option_price demo_libm 100 100 0 0.05 0.2 w0
       = (Raise e, w0).
Proof.
  apply (degenerate_raises demo_libm 100 100 0 0.05 0.2 w0).
  left. split; reflexivity.
Defined.

(** ** Valid inputs on which the machine computation fails *)

(** C1, as stated, fails: S = 1e-200, K = 1e200, T = 1, r = 0.05 and
    sigma = 0.2 are positive and finite, yet the quotient S / K underflows
    to zero and both functions raise ValueError at the logarithm, whatever
    the library functions are. *)
Lemma underflow_breaks_formula :
  is_positive 1e-200 = true /\ is_positive 1e200 = true
  /\ is_positive 1 = true /\ is_positive 0.2 = true
  /\ (1e-200 / 1e200 =? 0) = true
  /\ forall (L : Libm) (w : World),
       calculate_call_option_price L 1e-200 1e200 1 0.05 0.2 w
       = (Raise ValueError, w)
       /\ calculate_put_option_price L 1e-200 1e200 1 0.05 0.2 w
          = (Raise ValueError, w).
Proof.
  repeat split; try reflexivity;
    apply quotient_underflow_raises; reflexivity.
Qed.

(** C2, as stated, fails: at the valid input S = 1e-300, K = 1e300,
    T = 1, r = 0.05, sigma = 0.2 neither function returns a price, so
    there is no difference of prices to compare with S - K exp (- r T),
    within any tolerance. *)
Lemma underflow_breaks_parity :
  is_positive 1e-300 = true /\ is_positive 1e300 = true
  /\ is_positive 1 = true /\ is_positive 0.2 = true
  /\ forall (L : Libm) (w : World),
       calculate_call_option_price L 1e-300 1e300 1 0.05 0.2 w
       = (Raise ValueError, w)
       /\ calculate_put_option_price L 1e-300 1e300 1 0.05 0.2 w
          = (Raise ValueError, w)
       /\ ~ (exists (c p : float) (w1 w2 : World),
                calculate_call_option_price L 1e-300 1e300 1 0.05 0.2 w
                = (Ok c, w1)
                /\ calculate_put_option_price L 1e-300 1e300 1 0.05 0.2 w
                   = (Ok p, w2)).
Proof.
  repeat split; try reflexivity;
    try (apply quotient_underflow_raises; reflexivity).
  intros (c & p & w1 & w2 & Hc & _).
  assert (Hr : calculate_call_option_price L 1e-300 1e300 1 0.05 0.2 w
               = (Raise ValueError, w))
    by (apply quotient_underflow_raises; reflexivity).
  rewrite Hr in Hc. discriminate Hc.
Qed.

(** C6, as stated, fails: with K = 1e200, T = 1, r = 0.05 and sigma = 0.2
    fixed, the spots S1 = 1e-200 and S2 = 100 are valid and S1 <= S2, yet
    the call function returns no price at S1, so there is nothing below
    the price at S2. *)
Lemma underflow_breaks_monotonicity :
  is_positive 1e-200 = true /\ is_positive 100 = true
  /\ (1e-200 <=? 100) = true
  /\ is_positive 1e200 = true /\ is_positive 1 = true
  /\ is_positive 0.2 = true
  /\ forall (L : Libm) (w : World),
       calculate_call_option_price L 1e-200 1e200 1 0.05 0.2 w
       = (Raise ValueError, w)
       /\ ~ (exists (c1 : float) (w1 : World),
                calculate_call_option_price L 1e-200 1e200 1 0.05 0.2 w
                = (Ok c1, w1)).
Proof.
  repeat split; try reflexivity;
    try (apply quotient_underflow_raises; reflexivity).
  intros (c1 & w1 & Hc).
  assert (Hr : calculate_call_option_price L 1e-200 1e200 1 0.05 0.2 w
               = (Raise ValueError, w))
    by (apply quotient_underflow_raises; reflexivity).
  rewrite Hr in Hc. discriminate Hc.
Qed.

(** C10, as stated, fails: S = K = 1e-200 with T = 1, r = 0.05, sigma = 0.2
    is a valid input and lambda = 1e-200 is positive, yet lambda * S and
    lambda * K underflow to zero and both functions raise
    ZeroDivisionError there, so no price equals lambda times a price. *)
Lemma underflow_breaks_homogeneity :
  is_positive 1e-200 = true /\ is_positive 1 = true
  /\ is_positive 0.2 = true
  /\ (1e-200 * 1e-200 =? 0) = true
  /\ forall (L : Libm) (w : World),
       calculate_call_option_price L (1e-200 * 1e-200) (1e-200 * 1e-200)
                                   1 0.05 0.2 w
       = (Raise ZeroDivisionError, w)
       /\ calculate_put_option_price L (1e-200 * 1e-200) (1e-200 * 1e-200)
                                     1 0.05 0.2 w
          = (Raise ZeroDivisionError, w).
Proof.
  repeat split; try reflexivity;
    apply block_failure; apply zero_strike; reflexivity.
Qed.

(** ** Failures the code is sure to produce *)

(** X20: in machine arithmetic and for every library, a zero strike makes
    both functions raise ZeroDivisionError; a non-zero strike with a
    quotient S / K that is zero, negative or minus infinity makes both
    raise ValueError; a negative maturity makes both raise an exception of
    the arithmetic.  The console is left as it was. *)
Theorem pricing_failures (L : Libm) (S K T r sigma : float) (w : World) :
  ((K =? 0) = true ->
   calculate_call_option_price L S K T r sigma w
   = (Raise ZeroDivisionError, w)
   /\ calculate_put_option_price L S K T r sigma w
      = (Raise ZeroDivisionError, w))
  /\ ((K =? 0) = false -> (S / K <=? 0) = true ->
      calculate_call_option_price L S K T r sigma w = (Raise ValueError, w)
      /\ calculate_put_option_price L S K T r sigma w
         = (Raise ValueError, w))
  /\ ((T <? 0) = true ->
      exists e : exn,
        (e = ZeroDivisionError \/ e = ValueError \/ e = OverflowError)
        /\ calculate_call_option_price L S K T r sigma w = (Raise e, w)
        /\ calculate_put_option_price L S K T r sigma w = (Raise e, w)).
Proof.
  split; [| split].
  - intros HK. apply block_failure, zero_strike, HK.
  - intros HK Hq. apply block_failure, nonpositive_quotient; assumption.
  - intros HT.
    destruct (sqrt_domain L S K T r sigma) as (e & He & Hraise).
    { intros w'. apply math_sqrt_negative, HT. }
    exists e. split; [exact He |]. apply block_failure, Hraise.
Qed.

(** ** Both functions fail together *)

Lemma arith_d1_d2 (L : Libm) (S K T r sigma : float) :
  arith_call (call_d1_d2 L S K T r sigma).
Proof.
  unfold call_d1_d2. prove_arith.
Qed.

(** The two functions run the same block and the same exponential before
    anything else can fail, so they fail together. *)
Lemma price_outcomes (L : Libm) (S K T r sigma : float) :
  (exists c p : float,
      forall w,
        calculate_call_option_price L S K T r sigma w = (Ok c, w)
        /\ calculate_put_option_price L S K T r sigma w = (Ok p, w))
  \/ (exists e : exn,
         arith_exn e /\
         forall w,
           calculate_call_option_price L S K T r sigma w = (Raise e, w)
           /\ calculate_put_option_price L S K T r sigma w = (Raise e, w)).
Proof.
  destruct (arith_d1_d2 L S K T r sigma) as ([d | e] & Hd & Ed).
  - destruct (arith_math_exp L (- r * T)) as ([x | e] & Hx & Ex).
    + left.
      exists (S * norm_cdf L (fst d) - K * x * norm_cdf L (snd d)),
             (K * x * norm_cdf L (- snd d) - S * norm_cdf L (- fst d)).
      intros w.
      unfold calculate_call_option_price, calculate_put_option_price.
      change (put_d1_d2 L S K T r sigma) with (call_d1_d2 L S K T r sigma).
      unfold bind. rewrite Hd, Hx. split; reflexivity.
    + right. exists e. split; [apply Ex; reflexivity |].
      intros w.
      unfold calculate_call_option_price, calculate_put_option_price.
      change (put_d1_d2 L S K T r sigma) with (call_d1_d2 L S K T r sigma).
      unfold bind. rewrite Hd, Hx. split; reflexivity.
  - right. exists e. split; [apply Ed; reflexivity |].
    apply block_failure, Hd.
Qed.

(** X21: in machine arithmetic, on every input and for every library,
    either both functions return a float or both raise the same
    exception, which is ZeroDivisionError, ValueError or OverflowError; in
    both cases the console is left as it was. *)
Theorem prices_fail_together (L : Libm) (S K T r sigma : float) (w : World) :
  (exists c p : float,
      calculate_call_option_price L S K T r sigma w = (Ok c, w)
      /\ calculate_put_option_price L S K T r sigma w = (Ok p, w))
  \/ (exists e : exn,
         (e = ZeroDivisionError \/ e = ValueError \/ e = OverflowError)
         /\ calculate_call_option_price L S K T r sigma w = (Raise e, w)
         /\ calculate_put_option_price L S K T r sigma w = (Raise e, w)).
Proof.
  destruct (price_outcomes L S K T r sigma) as [(c & p & H) | (e & He & H)].
  - left. exists c, p. apply H.
  - right. exists e. split; [exact He | apply H].
Qed.

(** ** Overflow *)

(** X22: a finite volatility whose square overflows in the C library
    stops both functions with OverflowError, once the logarithm of S / K
    has been taken. *)
Theorem volatility_overflow (L : Libm) (S K T r sigma l : float)
        (w : World) :
  (K =? 0) = false ->
  math_log L (S / K) w = (Ok l, w) ->
  is_finite sigma = true ->
  (sigma =? 0) = false ->
  (abs sigma =? 1) = false ->
  is_infinity (c_pow L (abs sigma) 2) = true ->
  calculate_call_option_price L S K T r sigma w = (Raise OverflowError, w)
  /\ calculate_put_option_price L S K T r sigma w
     = (Raise OverflowError, w).
Proof.
  intros HK Hlog Hfin Hs0 Hs1 Hpow.
  destruct (finite_parts sigma Hfin) as [Hn Hi].
  destruct (arith_math_log L (S / K)) as (o & Ho & _).
  assert (Eo : o = Ok l).
  { specialize (Ho w). rewrite Hlog in Ho. inversion Ho. reflexivity. }
  subst o.
  apply block_failure. intros w'.
  unfold call_d1_d2, py_div. rewrite HK.
  unfold bind at 1. unfold ret at 1.
  unfold bind at 1. rewrite Ho.
  unfold bind at 1. unfold float_pow_2.
  rewrite Hn, Hi, Hs0, Hs1, Hpow. reflexivity.
Qed.

Lemma volatility_overflow_witness :
  calculate_call_option_price demo_libm 100 100 1 0.05 1e200 w0
  = (Raise OverflowError, w0)
  /\ calculate_put_option_price demo_libm 100 100 1 0.05 1e200 w0
     = (Raise OverflowError, w0).
Proof.
  apply (volatility_overflow demo_libm 100 100 1 0.05 1e200 0 w0);
    reflexivity.
Defined.

(** X23: when the intermediate values are computed and the exponential
    of (- r) * T, a finite number, overflows in the C library, both
    functions stop with OverflowError. *)
Theorem discount_overflow (L : Libm) (S K T r sigma : float)
        (d : float * float) (w : World) :
  call_d1_d2 L S K T r sigma w = (Ok d, w) ->
  is_finite (- r * T) = true ->
  is_infinity (c_exp L (- r * T)) = true ->
  calculate_call_option_price L S K T r sigma w = (Raise OverflowError, w)
  /\ calculate_put_option_price L S K T r sigma w
     = (Raise OverflowError, w).
Proof.
  intros Hd Hfin Hexp.
  pose proof (infinity_not_nan _ Hexp) as Hnan.
  unfold calculate_call_option_price, calculate_put_option_price.
  change (put_d1_d2 L S K T r sigma) with (call_d1_d2 L S K T r sigma).
  unfold bind. rewrite Hd.
  unfold math_exp, math_1. rewrite Hnan, Hexp, Hfin.
  split; reflexivity.
Qed.

Lemma discount_overflow_witness :
  calculate_call_option_price
    (mkLibm (fun _ => 0) (fun _ => infinity) (fun x _ => x * x)
            (fun _ => 0.5))
    100 100 1 (-1000) 0.2 w0
  = (Raise OverflowError, w0)
  /\ calculate_put_option_price
       (mkLibm (fun _ => 0) (fun _ => infinity) (fun x _ => x * x)
               (fun _ => 0.5))
       100 100 1 (-1000) 0.2 w0
     = (Raise OverflowError, w0).
Proof.
  apply (discount_overflow
           (mkLibm (fun _ => 0) (fun _ => infinity) (fun x _ => x * x)
                   (fun _ => 0.5))
           100 100 1 (-1000) 0.2
           ((0 + (-1000 + 0.5 * (0.2 * 0.2)) * 1) / (0.2 * 1),
            (0 + (-1000 + 0.5 * (0.2 * 0.2)) * 1) / (0.2 * 1) - 0.2 * 1)
           w0);
    reflexivity.
Defined.

(** ** An infinite volatility *)

Lemma rep_nan (x : float) : Prim2SF x = S754_nan -> is_nan x = true.
Proof.
  intros H. pose proof (classify_cases x) as C. rewrite H in C. apply C.
Qed.

Lemma nan_rep (x : float) : is_nan x = true -> Prim2SF x = S754_nan.
Proof.
  intros H. classify x; congruence.
Qed.

Lemma div_by_nan (x y : float) : is_nan y = true -> is_nan (x / y) = true.
Proof.
  intros H. apply rep_nan. rewrite div_spec, (nan_rep y H).
  destruct (Prim2SF x) as [sx | sx | | sx mx ex]; reflexivity.
Qed.

Lemma sub_nan (x y : float) : is_nan y = true -> is_nan (x - y) = true.
Proof.
  intros H. apply rep_nan. rewrite sub_spec, (nan_rep y H).
  destruct (Prim2SF x) as [sx | sx | | sx mx ex]; reflexivity.
Qed.

(** X24: the finiteness of sigma in the degenerate case cannot be dropped:
    with T = 0 and sigma = +infinity the denominator is infinity times
    zero, a NaN and not a zero, so nothing is raised there; when the
    logarithm and the exponential return, d1 and d2 are NaN and both
    functions return a float, computed from the distribution function at
    NaN. *)
Theorem infinite_volatility_returns (L : Libm) (S K r l x : float)
        (w : World) :
  (K =? 0) = false ->
  math_log L (S / K) w = (Ok l, w) ->
  math_exp L (- r * 0) w = (Ok x, w) ->
  exists d1 d2 : float,
    is_nan d1 = true /\ is_nan d2 = true
    /\ call_d1_d2 L S K 0 r infinity w = (Ok (d1, d2), w)
    /\ calculate_call_option_price L S K 0 r infinity w
       = (Ok (S * norm_cdf L d1 - K * x * norm_cdf L d2), w)
    /\ calculate_put_option_price L S K 0 r infinity w
       = (Ok (K * x * norm_cdf L (- d2) - S * norm_cdf L (- d1)), w).
Proof.
  intros HK Hlog Hexp.
  set (d1 := (l + (r + 0.5 * infinity) * 0) / nan).
  assert (Hd1 : is_nan d1 = true) by (apply div_by_nan; reflexivity).
  assert (Hd2 : is_nan (d1 - nan) = true) by (apply sub_nan; reflexivity).
  assert (Hblock : call_d1_d2 L S K 0 r infinity w = (Ok (d1, d1 - nan), w)).
  { unfold call_d1_d2, py_div. rewrite HK.
    unfold bind at 1. unfold ret at 1.
    unfold bind at 1. rewrite Hlog.
    reflexivity. }
  exists d1, (d1 - nan).
  split; [exact Hd1 |]. split; [exact Hd2 |]. split; [exact Hblock |].
  unfold calculate_call_option_price, calculate_put_option_price.
  change (put_d1_d2 L S K 0 r infinity) with (call_d1_d2 L S K 0 r infinity).
  unfold bind. rewrite Hblock, Hexp. split; reflexivity.
Qed.

Lemma infinite_volatility_returns_witness :
  exists d1 d2 : float,
    is_nan d1 = true /\ is_nan d2 = true
    /\ call_d1_d2 demo_libm 100 100 0 0.05 infinity w0 = (Ok (d1, d2), w0)
    /\ calculate_call_option_price demo_libm 100 100 0 0.05 infinity w0
       = (Ok (100 * norm_cdf demo_libm d1 - 100 * 1 * norm_cdf demo_libm d2),
          w0)
    /\ calculate_put_option_price demo_libm 100 100 0 0.05 infinity w0
       = (Ok (100 * 1 * norm_cdf demo_libm (- d2)
              - 100 * norm_cdf demo_libm (- d1)), w0).
Proof.
  apply (infinite_volatility_returns demo_libm 100 100 0.05 0 1 w0);
    reflexivity.
Defined.

(** ** The script *)

Section Script.

Variable L : Libm.

(** [float(s)] on a string: the float it denotes, NaN and the infinities
    included, or nothing when Python raises ValueError.  The built-in is
    not part of the script. *)
Variable py_float : string -> option float.

(** The value formatted with two decimals, as the format specification
    [.2f] does. *)
Variable format_2f : float -> string.

Definition float_of (s : string) : Py float :=
  match py_float s with
  | Some x => ret x
  | None => raise ValueError
  end.

(** [float(input(prompt))]. *)
Definition float_input (prompt : string) : Py float :=
  s <- py_input prompt ;;
  float_of s.

(** Lines 50-66. *)
Definition get_user_inputs : Py (float * float * float * float * float) :=
  u <- py_print welcome ;;
  stock_price <- float_input "Enter the current stock price (S0): " ;;
  strike_price <- float_input "Enter the strike price (K): " ;;
  time_to_maturity <-
    float_input "Enter the time to maturity in years (T): " ;;
  risk_free_rate <-
    float_input
      "Enter the risk-free interest rate (r) in decimal (e.g., 0.05 for 5%): " ;;
  volatility <-
    float_input "Enter the volatility (σ) in decimal (e.g., 0.2 for 20%): " ;;
  ret (stock_price, strike_price, time_to_maturity, risk_free_rate,
       volatility).

Definition call_line (call_price : float) : string :=
  String.append "European Call Option Price: $" (format_2f call_price).

Definition put_line (put_price : float) : string :=
  String.append "European Put Option Price: $" (format_2f put_price).

(** Lines 69-79. *)
Definition display_results (call_price put_price : float) : Py unit :=
  u1 <- py_print (String.append newline rule) ;;
  u2 <- py_print (call_line call_price) ;;
  u3 <- py_print (put_line put_price) ;;
  py_print (String.append rule newline).

(** Lines 82-93: the body run when the file is executed as a script. *)
Definition main : Py unit :=
  inputs <- get_user_inputs ;;
  let '(stock_price, strike_price, time_to_maturity, risk_free_rate,
        volatility) := inputs in
  call_option_price <-
    calculate_call_option_price L stock_price strike_price time_to_maturity
                                risk_free_rate volatility ;;
  put_option_price <-
    calculate_put_option_price L stock_price strike_price time_to_maturity
                               risk_free_rate volatility ;;
  display_results call_option_price put_option_price.

(** The block of four lines that shows the prices. *)
Definition results_block (call_price put_price : float) : list string :=
  [ String.append newline rule;
    call_line call_price;
    put_line put_price;
    String.append rule newline ].

(** A line is a number when [float] accepts it. *)
Definition is_number (s : string) : Prop := py_float s <> None.

Lemma read_float_ok (prompt line : string) (rest out : list string)
      (x : float) :
  py_float line = Some x ->
  float_input prompt (mkWorld (line :: rest) out)
  = (Ok x, mkWorld rest (out ++ [prompt])).
Proof.
  intros H. unfold float_input, bind, py_input, float_of. cbn.
  rewrite H. reflexivity.
Qed.

Lemma read_float_bad (prompt line : string) (rest out : list string) :
  py_float line = None ->
  float_input prompt (mkWorld (line :: rest) out)
  = (Raise ValueError, mkWorld rest (out ++ [prompt])).
Proof.
  intros H. unfold float_input, bind, py_input, float_of. cbn.
  rewrite H. reflexivity.
Qed.

Lemma read_float_eof (prompt : string) (out : list string) :
  float_input prompt (mkWorld [] out)
  = (Raise EOFError, mkWorld [] (out ++ [prompt])).
Proof. reflexivity. Qed.

Lemma number_value (s : string) :
  is_number s -> exists x : float, py_float s = Some x.
Proof.
  unfold is_number. destruct (py_float s) as [x |].
  - intros _. exists x. reflexivity.
  - intros H. exfalso. apply H. reflexivity.
Qed.

Ltac run_reads :=
  unfold get_user_inputs; unfold bind at 1; unfold py_print; cbn [stdin stdout];
  repeat
    (unfold bind at 1;
     first
       [ erewrite read_float_ok by eassumption
       | erewrite read_float_bad by eassumption
       | rewrite read_float_eof ]);
  unfold ret; repeat rewrite <- app_assoc; cbn [app]; try reflexivity.

Ltac split_numbers :=
  repeat match goal with
         | H : Forall _ (_ :: _) |- _ =>
             let Hh := fresh "Hh" in
             let Ht := fresh "Ht" in
             let x := fresh "x" in
             let Hx := fresh "Hx" in
             pose proof (Forall_inv H) as Hh;
             pose proof (Forall_inv_tail H) as Ht;
             clear H;
             destruct (number_value _ Hh) as [x Hx]
         end.

Lemma reads_five (l1 l2 l3 l4 l5 : string) (rest out : list string)
      (v1 v2 v3 v4 v5 : float) :
  py_float l1 = Some v1 -> py_float l2 = Some v2 -> py_float l3 = Some v3 ->
  py_float l4 = Some v4 -> py_float l5 = Some v5 ->
  get_user_inputs (mkWorld (l1 :: l2 :: l3 :: l4 :: l5 :: rest) out)
  = (Ok (v1, v2, v3, v4, v5), mkWorld rest (out ++ welcome :: prompts)).
Proof.
  intros H1 H2 H3 H4 H5. run_reads.
Qed.

Lemma stops_at_bad (good : list string) (bad : string)
      (rest out : list string) :
  (List.length good < 5)%nat -> Forall is_number good -> py_float bad = None ->
  get_user_inputs (mkWorld (good ++ bad :: rest) out)
  = (Raise ValueError,
     mkWorld rest
             (out ++ welcome :: firstn (Datatypes.S (List.length good)) prompts)).
Proof.
  intros Hlen Hgood Hbad.
  destruct good as [| g1 [| g2 [| g3 [| g4 [| g5 good]]]]];
    cbn [List.length] in Hlen; try (exfalso; apply PeanoNat.Nat.lt_nge in Hlen;
                                 apply Hlen; repeat apply le_n_S;
                                 apply PeanoNat.Nat.le_0_l);
    split_numbers;
    cbn [app List.length firstn prompts]; run_reads.
Qed.

Lemma stops_at_end (good out : list string) :
  (List.length good < 5)%nat -> Forall is_number good ->
  get_user_inputs (mkWorld good out)
  = (Raise EOFError,
     mkWorld []
             (out ++ welcome :: firstn (Datatypes.S (List.length good)) prompts)).
Proof.
  intros Hlen Hgood.
  destruct good as [| g1 [| g2 [| g3 [| g4 [| g5 good]]]]];
    cbn [List.length] in Hlen; try (exfalso; apply PeanoNat.Nat.lt_nge in Hlen;
                                 apply Hlen; repeat apply le_n_S;
                                 apply PeanoNat.Nat.le_0_l);
    split_numbers;
    cbn [app List.length firstn prompts]; run_reads.
Qed.

Lemma shows_results (c p : float) (w : World) :
  display_results c p w
  = (Ok tt, mkWorld (stdin w) (stdout w ++ results_block c p)).
Proof.
  unfold display_results, bind, py_print, results_block. cbn [stdin stdout].
  repeat rewrite <- app_assoc. reflexivity.
Qed.

(** What the input lines can look like to a reader that wants [n]
    numbers. *)
Lemma line_cases (n : nat) (l : list string) :
  (exists pre rest : list string,
      l = pre ++ rest /\ List.length pre = n /\ Forall is_number pre)
  \/ (exists (good : list string) (bad : string) (rest : list string),
         l = good ++ bad :: rest /\ (List.length good < n)%nat
         /\ Forall is_number good /\ py_float bad = None)
  \/ ((List.length l < n)%nat /\ Forall is_number l).
Proof.
  revert l. induction n as [| n IH]; intros l.
  - left. exists [], l. repeat split. constructor.
  - destruct l as [| g l].
    + right. right. split; [apply PeanoNat.Nat.lt_0_succ | constructor].
    + destruct (py_float g) as [x |] eqn:Hg.
      * assert (Hnum : is_number g).
        { unfold is_number. rewrite Hg. discriminate. }
        destruct (IH l) as [H | [H | H]].
        -- destruct H as (pre & rest & -> & Hlen & Hall).
           left. exists (g :: pre), rest. cbn. repeat split.
           ++ f_equal. exact Hlen.
           ++ constructor; assumption.
        -- destruct H as (good & bad & rest & -> & Hlen & Hall & Hbad).
           right. left. exists (g :: good), bad, rest. cbn. repeat split.
           ++ apply (proj1 (PeanoNat.Nat.succ_lt_mono _ _)). exact Hlen.
           ++ constructor; assumption.
           ++ exact Hbad.
        -- destruct H as (Hlen & Hall).
           right. right. cbn. split.
           ++ apply (proj1 (PeanoNat.Nat.succ_lt_mono _ _)). exact Hlen.
           ++ constructor; assumption.
      * right. left. exists [], g, l. cbn. repeat split.
        -- apply PeanoNat.Nat.lt_0_succ.
        -- constructor.
        -- exact Hg.
Qed.

Lemma five_floats (pre : list string) :
  List.length pre = 5%nat -> Forall is_number pre ->
  exists (l1 l2 l3 l4 l5 : string) (v1 v2 v3 v4 v5 : float),
    pre = [l1; l2; l3; l4; l5]
    /\ py_float l1 = Some v1 /\ py_float l2 = Some v2
    /\ py_float l3 = Some v3 /\ py_float l4 = Some v4
    /\ py_float l5 = Some v5.
Proof.
  intros Hlen Hall.
  destruct pre as [| l1 [| l2 [| l3 [| l4 [| l5 [| l6 pre]]]]]];
    try discriminate Hlen.
  split_numbers.
  exists l1, l2, l3, l4, l5.
  repeat eexists; eassumption.
Qed.

Lemma prompts_shown (k : nat) :
  exists j : nat,
    (1 <= j <= 5)%nat /\ firstn (Datatypes.S k) prompts = firstn j prompts.
Proof.
  destruct k as [| [| [| [| k]]]].
  - exists 1%nat. repeat split; repeat constructor.
  - exists 2%nat. repeat split; repeat constructor.
  - exists 3%nat. repeat split; repeat constructor.
  - exists 4%nat. repeat split; repeat constructor.
  - exists 5%nat. split; [split; repeat constructor |].
    cbn [firstn prompts]. rewrite firstn_nil. reflexivity.
Qed.

(** The script once the five numbers are read. *)
Lemma main_after_inputs (w w1 : World) (S K T r sigma : float) :
  get_user_inputs w = (Ok (S, K, T, r, sigma), w1) ->
  (forall c p : float,
      calculate_call_option_price L S K T r sigma w1 = (Ok c, w1) ->
      calculate_put_option_price L S K T r sigma w1 = (Ok p, w1) ->
      main w
      = (Ok tt, mkWorld (stdin w1) (stdout w1 ++ results_block c p)))
  /\ (forall e : exn,
         calculate_call_option_price L S K T r sigma w1 = (Raise e, w1) ->
         main w = (Raise e, w1)).
Proof.
  intros Hin. split.
  - intros c p Hc Hp. unfold main. unfold bind at 1. rewrite Hin.
    unfold bind at 1. rewrite Hc. unfold bind at 1. rewrite Hp.
    apply shows_results.
  - intros e Hc. unfold main. unfold bind at 1. rewrite Hin.
    unfold bind at 1. rewrite Hc. reflexivity.
Qed.

Lemma main_inputs_fail (w w1 : World) (e : exn) :
  get_user_inputs w = (Raise e, w1) -> main w = (Raise e, w1).
Proof.
  intros Hin. unfold main. unfold bind at 1. rewrite Hin. reflexivity.
Qed.

(** Every run of the script, whatever the input lines and the library,
    ends in one of two ways. *)
Lemma main_runs (w : World) :
  (exists (l1 l2 l3 l4 l5 : string) (rest : list string)
          (S K T r sigma c p : float),
      stdin w = l1 :: l2 :: l3 :: l4 :: l5 :: rest
      /\ py_float l1 = Some S /\ py_float l2 = Some K
      /\ py_float l3 = Some T /\ py_float l4 = Some r
      /\ py_float l5 = Some sigma
      /\ (forall v, calculate_call_option_price L S K T r sigma v = (Ok c, v))
      /\ (forall v, calculate_put_option_price L S K T r sigma v = (Ok p, v))
      /\ main w
         = (Ok tt,
            mkWorld rest
              (stdout w ++ welcome :: prompts ++ results_block c p)))
  \/ (exists (e : exn) (w' : World) (j : nat),
         main w = (Raise e, w')
         /\ (1 <= j <= 5)%nat
         /\ stdout w' = stdout w ++ welcome :: firstn j prompts
         /\ (e = ValueError \/ e = EOFError \/ e = ZeroDivisionError
             \/ e = OverflowError)).
Proof.
  destruct w as [inp out]. cbn [stdin stdout].
  destruct (line_cases 5 inp) as [H | [H | H]].
  - destruct H as (pre & rest & -> & Hlen & Hall).
    destruct (five_floats pre Hlen Hall)
      as (l1 & l2 & l3 & l4 & l5 & S & K & T & r & sigma
          & -> & H1 & H2 & H3 & H4 & H5).
    cbn [app].
    pose proof (reads_five l1 l2 l3 l4 l5 rest out
                  S K T r sigma H1 H2 H3 H4 H5) as Hin.
    destruct (main_after_inputs _ _ S K T r sigma Hin) as [Hok Hfail].
    destruct (price_outcomes L S K T r sigma)
      as [(c & p & Hcp) | (e & He & Hcp)].
    + left. exists l1, l2, l3, l4, l5, rest, S, K, T, r, sigma, c, p.
      repeat split; try assumption; try apply Hcp.
      rewrite (Hok c p) by apply Hcp. cbn [stdin stdout].
      rewrite <- app_assoc. reflexivity.
    + right.
      exists e, (mkWorld rest (out ++ welcome :: prompts)), 5%nat.
      split; [apply Hfail, Hcp |].
      split; [split; repeat constructor |].
      split; [reflexivity |].
      destruct He as [-> | [-> | ->]]; auto.
  - destruct H as (good & bad & rest & -> & Hlen & Hall & Hbad).
    right.
    destruct (prompts_shown (List.length good)) as (j & Hj & Ej).
    exists ValueError,
      (mkWorld rest
         (out ++ welcome :: firstn (Datatypes.S (List.length good)) prompts)),
      j.
    split; [apply main_inputs_fail, stops_at_bad; assumption |].
    split; [exact Hj |].
    split; [cbn [stdout]; rewrite Ej; reflexivity | auto].
  - destruct H as (Hlen & Hall).
    right.
    destruct (prompts_shown (List.length inp)) as (j & Hj & Ej).
    exists EOFError,
      (mkWorld []
         (out ++ welcome :: firstn (Datatypes.S (List.length inp)) prompts)),
      j.
    split; [apply main_inputs_fail, stops_at_end; assumption |].
    split; [exact Hj |].
    split; [cbn [stdout]; rewrite Ej; reflexivity | auto].
Qed.

End Script.

(** A table standing for [float] on the few lines the examples use, and a
    formatter that shows no digits. *)
Definition demo_float (s : string) : option float :=
  if String.eqb s "100" then Some 100
  else if String.eqb s "1" then Some 1
  else if String.eqb s "0.05" then Some 0.05
  else if String.eqb s "0.2" then Some 0.2
  else if String.eqb s "0" then Some 0
  else if String.eqb s "nan" then Some nan
  else None.

Definition demo_format (x : float) : string := "#.##".

(** ** Properties of the script *)

(** X16: when the input starts with five lines that [float] accepts and
    both pricing functions return a float on the five numbers, the script
    ends normally: after the welcome line and the five prompts it writes
    the block of four lines with the formatted call and put prices, and it
    consumes exactly the five lines. *)
Theorem main_prints_prices
        (L : Libm) (py_float : string -> option float)
        (format_2f : float -> string)
        (w v : World) (l1 l2 l3 l4 l5 : string) (rest : list string)
        (S K T r sigma c p : float) :
  stdin w = l1 :: l2 :: l3 :: l4 :: l5 :: rest ->
  py_float l1 = Some S -> py_float l2 = Some K -> py_float l3 = Some T ->
  py_float l4 = Some r -> py_float l5 = Some sigma ->
  calculate_call_option_price L S K T r sigma v = (Ok c, v) ->
  calculate_put_option_price L S K T r sigma v = (Ok p, v) ->
  main L py_float format_2f w
  = (Ok tt,
     mkWorld rest
       (stdout w ++ welcome :: prompts
        ++ [ String.append newline rule;
             String.append "European Call Option Price: $" (format_2f c);
             String.append "European Put Option Price: $" (format_2f p);
             String.append rule newline ])).
Proof.
  intros Hw H1 H2 H3 H4 H5 Hc Hp.
  destruct w as [inp out]. cbn [stdin stdout] in *. subst inp.
  pose proof (reads_five py_float l1 l2 l3 l4 l5 rest out
                S K T r sigma H1 H2 H3 H4 H5) as Hin.
  destruct (main_after_inputs L py_float format_2f _ _ S K T r sigma Hin)
    as [Hok _].
  assert (Hcp : forall u,
             calculate_call_option_price L S K T r sigma u = (Ok c, u)
             /\ calculate_put_option_price L S K T r sigma u = (Ok p, u)).
  { destruct (price_outcomes L S K T r sigma)
      as [(c' & p' & H) | (e & _ & H)].
    - destruct (H v) as [Hc' Hp']. rewrite Hc in Hc'. rewrite Hp in Hp'.
      inversion Hc'. inversion Hp'. subst. exact H.
    - destruct (H v) as [Hc' _]. rewrite Hc in Hc'. discriminate Hc'. }
  rewrite (Hok c p) by apply Hcp.
  cbn [stdin stdout]. unfold results_block, call_line, put_line.
  rewrite <- app_assoc. reflexivity.
Qed.

Lemma main_prints_prices_witness :
  main demo_libm demo_float demo_format
       (mkWorld ["100"; "100"; "1"; "0.05"; "0.2"]%string [])
  = (Ok tt,
     mkWorld []
       ([] ++ welcome :: prompts
        ++ [ String.append newline rule;
             String.append "European Call Option Price: $" (demo_format 0);
             String.append "European Put Option Price: $" (demo_format 0);
             String.append rule newline ])).
Proof.
  apply (main_prints_prices demo_libm demo_float demo_format
           (mkWorld ["100"; "100"; "1"; "0.05"; "0.2"]%string []) w0
           "100" "100" "1" "0.05" "0.2" [] 100 100 1 0.05 0.2 0 0);
    reflexivity.
Defined.

(** X17: when the input starts with five lines that [float] accepts and a
    pricing function raises on the five numbers, the script stops with
    that exception, ZeroDivisionError, ValueError or OverflowError, after
    the fifth prompt: the five lines are consumed and no price is
    written. *)
Theorem main_fails_without_results
        (L : Libm) (py_float : string -> option float)
        (format_2f : float -> string)
        (w v : World) (l1 l2 l3 l4 l5 : string) (rest : list string)
        (S K T r sigma : float) (e : exn) :
  stdin w = l1 :: l2 :: l3 :: l4 :: l5 :: rest ->
  py_float l1 = Some S -> py_float l2 = Some K -> py_float l3 = Some T ->
  py_float l4 = Some r -> py_float l5 = Some sigma ->
  calculate_call_option_price L S K T r sigma v = (Raise e, v)
  \/ calculate_put_option_price L S K T r sigma v = (Raise e, v) ->
  main L py_float format_2f w
  = (Raise e, mkWorld rest (stdout w ++ welcome :: prompts))
  /\ (e = ZeroDivisionError \/ e = ValueError \/ e = OverflowError).
Proof.
  intros Hw H1 H2 H3 H4 H5 Hraise.
  destruct w as [inp out]. cbn [stdin stdout] in *. subst inp.
  pose proof (reads_five py_float l1 l2 l3 l4 l5 rest out
                S K T r sigma H1 H2 H3 H4 H5) as Hin.
  destruct (main_after_inputs L py_float format_2f _ _ S K T r sigma Hin)
    as [_ Hfail].
  destruct (price_outcomes L S K T r sigma)
    as [(c' & p' & H) | (e' & He' & H)].
  - exfalso. destruct (H v) as [Hc' Hp'].
    destruct Hraise as [Hr | Hr]; [rewrite Hr in Hc' | rewrite Hr in Hp'];
      discriminate.
  - assert (Ee : e' = e).
    { destruct (H v) as [Hc' Hp'].
      destruct Hraise as [Hr | Hr]; [rewrite Hr in Hc' | rewrite Hr in Hp'];
        congruence. }
    subst e'. split; [| exact He'].
    apply Hfail, H.
Qed.

Lemma main_fails_without_results_witness :
  main demo_libm demo_float demo_format
       (mkWorld ["100"; "100"; "0"; "0.05"; "0.2"]%string [])
  = (Raise ZeroDivisionError, mkWorld [] ([] ++ welcome :: prompts))
  /\ (ZeroDivisionError = ZeroDivisionError
      \/ ZeroDivisionError = ValueError
      \/ ZeroDivisionError = OverflowError).
Proof.
  apply (main_fails_without_results demo_libm demo_float demo_format
           (mkWorld ["100"; "100"; "0"; "0.05"; "0.2"]%string []) w0
           "100" "100" "0" "0.05" "0.2" [] 100 100 0 0.05 0.2
           ZeroDivisionError);
    try reflexivity.
  left. reflexivity.
Defined.

(** X18: all or nothing: when the script fails, for whatever reason, the
    exception is ValueError, EOFError, ZeroDivisionError or OverflowError
    and the script has written the welcome line and between one and five
    prompts and nothing else; no part of the results block appears. *)
Theorem main_all_or_nothing
        (L : Libm) (py_float : string -> option float)
        (format_2f : float -> string)
        (w w' : World) (e : exn) :
  main L py_float format_2f w = (Raise e, w') ->
  exists j : nat,
    (1 <= j <= 5)%nat
    /\ stdout w' = stdout w ++ welcome :: firstn j prompts
    /\ (e = ValueError \/ e = EOFError \/ e = ZeroDivisionError
        \/ e = OverflowError).
Proof.
  intros Hrun.
  destruct (main_runs L py_float format_2f w) as [H | H].
  - destruct H as (l1 & l2 & l3 & l4 & l5 & rest & S & K & T & r & sigma
                   & c & p & _ & _ & _ & _ & _ & _ & _ & _ & Hok).
    rewrite Hok in Hrun. discriminate Hrun.
  - destruct H as (e0 & w0' & j & Hfail & Hj & Hout & Hcls).
    rewrite Hfail in Hrun. inversion Hrun; subst.
    exists j. auto.
Qed.

Lemma main_all_or_nothing_witness :
  exists j : nat,
    (1 <= j <= 5)%nat
    /\ stdout (mkWorld [] ([] ++ [welcome] ++ firstn 2 prompts))
       = [] ++ welcome :: firstn j prompts
    /\ (ValueError = ValueError \/ ValueError = EOFError
        \/ ValueError = ZeroDivisionError \/ ValueError = OverflowError).
Proof.
  apply (main_all_or_nothing demo_libm demo_float demo_format
           (mkWorld ["100"; "abc"]%string [])
           (mkWorld [] ([] ++ [welcome] ++ firstn 2 prompts))
           ValueError).
  reflexivity.
Defined.

(** X19: the script ends normally exactly when the input starts with five
    lines that [float] accepts and the call function returns a float on
    the five numbers (the put function then does too).  A line such as
    nan is accepted by [float]: the script then ends normally whenever
    the arithmetic raises nothing. *)
Theorem main_succeeds_iff
        (L : Libm) (py_float : string -> option float)
        (format_2f : float -> string) (w : World) :
  (exists w' : World, main L py_float format_2f w = (Ok tt, w'))
  <->
  (exists (l1 l2 l3 l4 l5 : string) (rest : list string)
          (S K T r sigma c : float),
      stdin w = l1 :: l2 :: l3 :: l4 :: l5 :: rest
      /\ py_float l1 = Some S /\ py_float l2 = Some K
      /\ py_float l3 = Some T /\ py_float l4 = Some r
      /\ py_float l5 = Some sigma
      /\ calculate_call_option_price L S K T r sigma w = (Ok c, w)).
Proof.
  split.
  - intros [w' Hrun].
    destruct (main_runs L py_float format_2f w) as [H | H].
    + destruct H as (l1 & l2 & l3 & l4 & l5 & rest & S & K & T & r & sigma
                     & c & p & Hw & H1 & H2 & H3 & H4 & H5 & Hc & _).
      exists l1, l2, l3, l4, l5, rest, S, K, T, r, sigma, c.
      repeat split; try assumption. apply Hc.
    + destruct H as (e0 & w0' & j & Hfail & _).
      rewrite Hfail in Hrun. discriminate Hrun.
  - intros (l1 & l2 & l3 & l4 & l5 & rest & S & K & T & r & sigma & c
            & Hw & H1 & H2 & H3 & H4 & H5 & Hc).
    destruct (price_outcomes L S K T r sigma)
      as [(c' & p' & H) | (e & _ & H)].
    + destruct w as [inp out]. cbn [stdin] in Hw. subst inp.
      pose proof (reads_five py_float l1 l2 l3 l4 l5 rest out
                    S K T r sigma H1 H2 H3 H4 H5) as Hin.
      destruct (main_after_inputs L py_float format_2f _ _ S K T r sigma Hin)
        as [Hok _].
      eexists. apply (Hok c' p'); apply H.
    + destruct (H w) as [Hc' _]. rewrite Hc in Hc'. discriminate Hc'.
Qed.

End Machine.
